(** * Metrics library: metrics, hand-off queue, background writer, collector

    A shallow embedding of [metrics_library.h] / [metrics_library.cpp].

    - [Gauge] and [Counter] are the two implementations of the abstract
      class [Metric]; every method takes the instance mutex for its whole
      body, so each method is one atomic state transformer.
    - [ThreadSafeQueue] is a [std::queue] of snapshots and a [stopped_]
      flag; every method runs under the queue mutex.
    - [MetricsWriter] owns the queue, the [running_] flag and the thread
      that executes [run]; the thread is a small-step machine whose steps
      are the accesses to shared state, interleaved with the owner's calls.
    - [MetricsCollector] holds [shared_ptr]s to metrics that live in a heap
      and may be registered more than once. *)

From Stdlib Require Import ZArith String Ascii DecimalString DecimalPos.
From stdpp Require Import base option list strings gmap.

#[local] Open Scope string_scope.
#[local] Open Scope list_scope.
#[local] Open Scope Z_scope.

(** ** Text rendering of numbers *)

(** [std::to_string(int)]: decimal digits, a leading minus for negatives. *)
Definition to_string (z : Z) : string := NilZero.string_of_int (Z.to_int z).

Definition digit (n : Z) : ascii := ascii_of_nat (48 + Z.to_nat (n mod 10)).

(** An IEEE-754 [double]: sign, and for finite values an integral
    significand [m] and a binary exponent [e], the value being
    [(-1)^sign * m * 2^e].  The zeros are [DFinite s 0 e]. *)
Inductive double : Type :=
  | DFinite (sign : bool) (m : N) (e : Z)
  | DInf (sign : bool)
  | DNaN (sign : bool).

Definition dzero : double := DFinite false 0 0.

Definition is_finite (d : double) : bool :=
  match d with DFinite _ _ _ => true | _ => false end.

(** [hundredths m e]: the integer nearest to [m * 2^e * 100], ties to the
    even neighbour (the conversion is exact on the binary value). *)
Definition hundredths (m : N) (e : Z) : Z :=
  let n := Z.of_N m * 100 in
  if 0 <=? e then n * 2 ^ e
  else
    let d := 2 ^ (- e) in
    let q := n / d in
    let r := n mod d in
    if 2 * r <? d then q
    else if d <? 2 * r then q + 1
    else if Z.even q then q else q + 1.

Definition sign_prefix (s : bool) : string := if s then "-" else "".

(** [ss << std::fixed << std::setprecision(2) << v]. *)
Definition fixed2 (v : double) : string :=
  match v with
  | DFinite s m e =>
      let h := hundredths m e in
      sign_prefix s +:+ to_string (h / 100) +:+ "."
        +:+ String (digit (h / 10)) (String (digit h) "")
  | DInf s => sign_prefix s +:+ "inf"
  | DNaN s => sign_prefix s +:+ "nan"
  end.

(** ** The [int] of the counter: 32 bits, two's complement *)

Definition INT_MIN : Z := - 2 ^ 31.
Definition INT_MAX : Z := 2 ^ 31 - 1.

Definition in_int (z : Z) : Prop := INT_MIN <= z <= INT_MAX.

(** Signed overflow is undefined in C++; the model takes the wrap-around
    that the two's-complement addition of the target performs. *)
Definition wrap_int (z : Z) : Z := (z + 2 ^ 31) mod 2 ^ 32 - 2 ^ 31.

(** ** The [Metric] interface and its two implementations *)

Class Metric (M : Type) : Type := {
  getName : M → string;
  getValueAsString : M → string;
  reset : M → M
}.

Module Gauge.

Record t : Type := { name_ : string; value_ : double }.

(** [Gauge::Gauge(name)] *)
Definition new (name : string) : t := {| name_ := name; value_ := dzero |}.

(** [Gauge::update(value)] *)
Definition update (value : double) (g : t) : t :=
  {| name_ := name_ g; value_ := value |}.

Definition getName (g : t) : string := name_ g.

Definition getValueAsString (g : t) : string := fixed2 (value_ g).

Definition reset (g : t) : t := {| name_ := name_ g; value_ := dzero |}.

(** A run of [update] calls, first call first. *)
Definition updates (vs : list double) (g : t) : t :=
  fold_left (λ acc v, update v acc) vs g.

End Gauge.

Module Counter.

Record t : Type := { name_ : string; value_ : Z }.

(** [Counter::Counter(name)] *)
Definition new (name : string) : t := {| name_ := name; value_ := 0 |}.

(** [Counter::increment(value)]: [value_ += value] on an [int]. *)
Definition increment (value : Z) (c : t) : t :=
  {| name_ := name_ c; value_ := wrap_int (value_ c + value) |}.

(** The declaration [increment(int value = 1)]: a call that omits the
    argument passes 1. *)
Definition delta_of (arg : option Z) : Z := default 1 arg.

Definition getName (c : t) : string := name_ c.

Definition getValueAsString (c : t) : string := to_string (value_ c).

Definition reset (c : t) : t := {| name_ := name_ c; value_ := 0 |}.

(** A run of [increment] calls, first call first; [None] is a call
    without argument. *)
Definition increments (args : list (option Z)) (c : t) : t :=
  fold_left (λ acc a, increment (delta_of a) acc) args c.

(** The mathematical sum of the deltas of a run of calls. *)
Definition sum_deltas (args : list (option Z)) : Z :=
  foldr (λ a acc, delta_of a + acc) 0 args.

End Counter.

#[export] Instance Gauge_Metric : Metric Gauge.t := {|
  getName := Gauge.getName;
  getValueAsString := Gauge.getValueAsString;
  reset := Gauge.reset
|}.

#[export] Instance Counter_Metric : Metric Counter.t := {|
  getName := Counter.getName;
  getValueAsString := Counter.getValueAsString;
  reset := Counter.reset
|}.

(** An object behind a [std::shared_ptr<Metric>]: the dynamic type selects
    the override. *)
Inductive MetricObj : Type :=
  | OGauge (g : Gauge.t)
  | OCounter (c : Counter.t).

#[export] Instance MetricObj_Metric : Metric MetricObj := {|
  getName o := match o with OGauge g => getName g | OCounter c => getName c end;
  getValueAsString o :=
    match o with
    | OGauge g => getValueAsString g
    | OCounter c => getValueAsString c
    end;
  reset o :=
    match o with OGauge g => OGauge (reset g) | OCounter c => OCounter (reset c) end
|}.

(** The text a metric shows right after [reset]. *)
Definition zero_text (o : MetricObj) : string :=
  match o with OGauge _ => "0.00" | OCounter _ => "0" end.

(** ** Snapshots and the hand-off queue *)

(** [std::vector<std::pair<std::string, std::string>>] *)
Definition Snapshot : Type := list (string * string).

Definition is_empty {A : Type} (l : list A) : bool :=
  match l with [] => true | _ :: _ => false end.

Module ThreadSafeQueue.

Record t : Type := { queue_ : list Snapshot; stopped_ : bool }.

(** The default-constructed member: empty queue, [stopped_{false}]. *)
Definition new : t := {| queue_ := []; stopped_ := false |}.

(** [push(data)]: [queue_.push(data)]; the notification carries no state. *)
Definition push (data : Snapshot) (q : t) : t :=
  {| queue_ := queue_ q ++ [data]; stopped_ := stopped_ q |}.

(** [tryPop(data)]: the returned flag, the out-parameter and the queue. *)
Definition tryPop (data : Snapshot) (q : t) : bool * Snapshot * t :=
  match queue_ q with
  | [] => (false, data, q)
  | front :: rest => (true, front, {| queue_ := rest; stopped_ := stopped_ q |})
  end.

(** The predicate of [cond_var_.wait]: the call proceeds once it holds. *)
Definition wait_pred (q : t) : bool := negb (is_empty (queue_ q)) || stopped_ q.

(** What a call of [waitAndPop] does on the queue it finds: it stays
    blocked, it returns without touching its argument, or it moves the
    front element out. *)
Inductive outcome : Type :=
  | Blocked
  | Absent
  | Popped (front : Snapshot) (q' : t).

Definition waitAndPop_outcome (q : t) : outcome :=
  if wait_pred q then
    if is_empty (queue_ q) && stopped_ q then Absent
    else
      match queue_ q with
      | front :: rest => Popped front {| queue_ := rest; stopped_ := stopped_ q |}
      | [] => Blocked (* excluded by the two tests above *)
      end
  else Blocked.

(** [waitAndPop(data)]: [None] while the call is blocked, otherwise the
    out-parameter and the queue at return. *)
Definition waitAndPop (data : Snapshot) (q : t) : option (Snapshot * t) :=
  match waitAndPop_outcome q with
  | Blocked => None
  | Absent => Some (data, q)
  | Popped front q' => Some (front, q')
  end.

(** [stop()] *)
Definition stop (q : t) : t := {| queue_ := queue_ q; stopped_ := true |}.

(** Calls on one queue, in the order in which they take the mutex. *)
Inductive op : Type :=
  | Push (data : Snapshot)
  | TryPop
  | WaitAndPop
  | Stop.

(** One call: the queue afterwards and what the call handed to its
    caller; [None] when the call cannot return on this queue. *)
Definition run_op (o : op) (q : t) : option (t * list Snapshot) :=
  match o with
  | Push data => Some (push data q, [])
  | TryPop =>
      let '(ok, data, q') := tryPop [] q in
      Some (q', if ok then [data] else [])
  | WaitAndPop =>
      match waitAndPop_outcome q with
      | Blocked => None
      | Absent => Some (q, [])
      | Popped front q' => Some (q', [front])
      end
  | Stop => Some (stop q, [])
  end.

Fixpoint run_ops (os : list op) (q : t) : option (t * list Snapshot) :=
  match os with
  | [] => Some (q, [])
  | o :: os' =>
      match run_op o q with
      | None => None
      | Some (q', out) =>
          match run_ops os' q' with
          | None => None
          | Some (q'', outs) => Some (q'', out ++ outs)
          end
      end
  end.

(** The arguments of the [push] calls of a history, in call order. *)
Fixpoint pushed (os : list op) : list Snapshot :=
  match os with
  | [] => []
  | Push data :: os' => data :: pushed os'
  | _ :: os' => pushed os'
  end.

(** [n] calls of [tryPop] in a row: what they returned, and the queue. *)
Fixpoint drain (n : nat) (q : t) : list Snapshot * t :=
  match n with
  | O => ([], q)
  | S n' =>
      let '(ok, data, q') := tryPop [] q in
      if ok then let '(rest, q'') := drain n' q' in (data :: rest, q'')
      else ([], q')
  end.

End ThreadSafeQueue.

(** ** The writer and its background thread *)

(** The outcome of a call as its caller sees it. *)
Inductive result (A : Type) : Type :=
  | Ok (a : A)
  | Throw (what : string).
Arguments Ok {A} a.
Arguments Throw {A} what.

Definition dquote : string := String (ascii_of_nat 34) "".
Definition newline : string := String (ascii_of_nat 10) "".

Module MetricsWriter.

(** Where the thread that executes [run] stands.  A step ends at each
    access to state shared with other threads. *)
Inductive pc : Type :=
  | Spawned                        (* [run] entered, sink not yet opened *)
  | LoopHead                       (* about to test [while (running_)] *)
  | AtWaitAndPop                   (* [metrics] is empty, in [waitAndPop] *)
  | AtTryPop (metrics : Snapshot)  (* at [metrics.empty() && tryPop(metrics)] *)
  | AtWrite (metrics : Snapshot)   (* at [if (!metrics.empty())] *)
  | Returned                       (* sink closed, [run] has returned *)
  | Terminated.                    (* exception left [run]: [std::terminate] *)

(** Where the owner of the writer stands: using it, or inside the
    destructor after each of its three statements. *)
Inductive owner_pc : Type :=
  | Alive
  | RunningCleared
  | QueueStopped
  | Joined.

Record t : Type := {
  filename_ : string;
  queue_ : ThreadSafeQueue.t;
  running_ : bool;
  thread : pc;
  owner : owner_pc;
  file : list string   (* the lines this writer appended to the sink *)
}.

Definition set_thread (p : pc) (w : t) : t :=
  {| filename_ := filename_ w; queue_ := queue_ w; running_ := running_ w;
     thread := p; owner := owner w; file := file w |}.

Definition set_queue (q : ThreadSafeQueue.t) (w : t) : t :=
  {| filename_ := filename_ w; queue_ := q; running_ := running_ w;
     thread := thread w; owner := owner w; file := file w |}.

Definition set_running (b : bool) (w : t) : t :=
  {| filename_ := filename_ w; queue_ := queue_ w; running_ := b;
     thread := thread w; owner := owner w; file := file w |}.

Definition set_owner (o : owner_pc) (w : t) : t :=
  {| filename_ := filename_ w; queue_ := queue_ w; running_ := running_ w;
     thread := thread w; owner := o; file := file w |}.

Definition append_line (line : string) (w : t) : t :=
  {| filename_ := filename_ w; queue_ := queue_ w; running_ := running_ w;
     thread := thread w; owner := owner w; file := file w ++ [line] |}.

(** The constructor: it stores the name, sets [running_] and starts the
    thread; it does not touch the sink. *)
Definition new (filename : string) : result t :=
  Ok {| filename_ := filename; queue_ := ThreadSafeQueue.new;
        running_ := true; thread := Spawned; owner := Alive; file := [] |}.

(** [write(metrics)] *)
Definition write (metrics : Snapshot) (w : t) : t :=
  set_queue (ThreadSafeQueue.push metrics (queue_ w)) w.

(** One line of the sink: the time stamp, then [ "name" value] for each
    pair, then the line end. *)
Definition format_line (now : string) (metrics : Snapshot) : string :=
  now
  +:+ foldr (λ '(name, value) acc,
             " " +:+ dquote +:+ name +:+ dquote +:+ " " +:+ value +:+ acc)
            "" metrics
  +:+ newline.

Section Run.

(** Whether [std::ofstream(name, std::ios::app)] ends up open. *)
Variable can_open : string → bool.

(** One step of the thread; [now] is the rendered clock reading, used
    if the step writes a line.  [None]: the thread cannot move (blocked
    in [waitAndPop], or finished). *)
Definition run_step (now : string) (w : t) : option t :=
  match thread w with
  | Spawned =>
      if can_open (filename_ w) then Some (set_thread LoopHead w)
      else Some (set_thread Terminated w)
  | LoopHead =>
      if running_ w then Some (set_thread AtWaitAndPop w)
      else Some (set_thread Returned w)
  | AtWaitAndPop =>
      match ThreadSafeQueue.waitAndPop [] (queue_ w) with
      | None => None
      | Some (metrics, q') => Some (set_thread (AtTryPop metrics) (set_queue q' w))
      end
  | AtTryPop metrics =>
      if is_empty metrics then
        let '(ok, metrics', q') := ThreadSafeQueue.tryPop metrics (queue_ w) in
        if ok then Some (set_thread LoopHead (set_queue q' w))
        else Some (set_thread (AtWrite metrics') (set_queue q' w))
      else Some (set_thread (AtWrite metrics) w)
  | AtWrite metrics =>
      if negb (is_empty metrics) then
        Some (set_thread LoopHead (append_line (format_line now metrics) w))
      else Some (set_thread LoopHead w)
  | Returned => None
  | Terminated => None
  end.

(** What can happen to a writer: a step of its thread, a [write] by
    its owner, or one of the three statements of the destructor. *)
Inductive event : Type :=
  | Thread (now : string)
  | Write (metrics : Snapshot)
  | DtorClearRunning
  | DtorStopQueue
  | DtorJoin.

(** [None]: the event cannot happen in this state.  After
    [std::terminate] nothing happens any more. *)
Definition exec (e : event) (w : t) : option t :=
  match thread w with
  | Terminated => None
  | _ =>
      match e, owner w with
      | Thread now, _ => run_step now w
      | Write metrics, Alive => Some (write metrics w)
      | DtorClearRunning, Alive =>
          Some (set_owner RunningCleared (set_running false w))
      | DtorStopQueue, RunningCleared =>
          Some (set_owner QueueStopped (set_queue (ThreadSafeQueue.stop (queue_ w)) w))
      | DtorJoin, QueueStopped =>
          match thread w with
          | Returned => Some (set_owner Joined w)
          | _ => None
          end
      | _, _ => None
      end
  end.

Fixpoint execs (es : list event) (w : t) : option t :=
  match es with
  | [] => Some w
  | e :: es' =>
      match exec e w with
      | None => None
      | Some w' => execs es' w'
      end
  end.

(** The arguments of the [write] calls of a history, in call order. *)
Fixpoint written (es : list event) : list Snapshot :=
  match es with
  | [] => []
  | Write metrics :: es' => metrics :: written es'
  | _ :: es' => written es'
  end.

End Run.

End MetricsWriter.

(** ** The collector *)

(** The address behind a [std::shared_ptr<Metric>]; an address outside the
    heap stands for a null pointer. *)
Definition ptr : Type := nat.

Module MetricsCollector.

Record t : Type := {
  metrics_ : list ptr;
  writer_ : MetricsWriter.t
}.

(** The constructor builds the member [writer_(filename)]. *)
Definition new (filename : string) : result t :=
  match MetricsWriter.new filename with
  | Ok w => Ok {| metrics_ := []; writer_ := w |}
  | Throw what => Throw what
  end.

(** [addMetric(metric)] *)
Definition addMetric (metric : ptr) (c : t) : t :=
  {| metrics_ := metrics_ c ++ [metric]; writer_ := writer_ c |}.

(** The loop of [collectAndWrite] over the registered pointers: read the
    name and the text of the value, then reset the object in place.
    [None]: a pointer that designates no object was dereferenced. *)
Fixpoint collect (ms : list ptr) (h : gmap ptr MetricObj) (snapshot : Snapshot)
    : option (gmap ptr MetricObj * Snapshot) :=
  match ms with
  | [] => Some (h, snapshot)
  | metric :: ms' =>
      match h !! metric with
      | None => None
      | Some o =>
          collect ms' (<[metric := reset o]> h)
                  (snapshot ++ [(getName o, getValueAsString o)])
      end
  end.

(** [collectAndWrite()]: the heap and the collector afterwards. *)
Definition collectAndWrite (c : t) (h : gmap ptr MetricObj)
    : option (t * gmap ptr MetricObj) :=
  match collect (metrics_ c) h [] with
  | None => None
  | Some (h', snapshot) =>
      Some ({| metrics_ := metrics_ c;
               writer_ := MetricsWriter.write snapshot (writer_ c) |}, h')
  end.

End MetricsCollector.

(** ** Shape of rendered text *)

Definition is_digit (c : ascii) : bool :=
  (48 <=? nat_of_ascii c)%nat && (nat_of_ascii c <=? 57)%nat.

(** The text after the first point of a string, if it has a point. *)
Fixpoint after_dot (s : string) : option string :=
  match s with
  | EmptyString => None
  | String c rest => if Ascii.eqb c "." then Some rest else after_dot rest
  end.

(** The string has one point, followed by exactly two decimal digits. *)
Definition two_fraction_digits (s : string) : bool :=
  match after_dot s with
  | Some (String d1 (String d2 EmptyString)) => is_digit d1 && is_digit d2
  | _ => false
  end.

(** ** Reading rendered text back *)

(** The value of a decimal digit. *)
Definition value_of_digit (c : ascii) : option Z :=
  if is_digit c then Some (Z.of_nat (nat_of_ascii c) - 48) else None.

(** Reads decimal digits up to the first point: their value, and the
    text behind the point.  [None] when a character other than a digit
    comes first, or when there is no point. *)
Fixpoint read_until_dot (s : string) (acc : Z) : option (Z * string) :=
  match s with
  | EmptyString => None
  | String c rest =>
      if Ascii.eqb c "." then Some (acc, rest)
      else
        match value_of_digit c with
        | Some d => read_until_dot rest (10 * acc + d)
        | None => None
        end
  end.

(** Splits a leading minus sign off a text. *)
Definition strip_sign (text : string) : bool * string :=
  match text with
  | String c rest => if Ascii.eqb c "-" then (true, rest) else (false, text)
  | EmptyString => (false, text)
  end.

(** Reads a text of the form [-]digits.dd: whether it has a minus sign,
    and the number of hundredths it denotes.  [None] for any other text,
    "inf" and "nan" included. *)
Definition read_fixed2 (text : string) : option (bool * Z) :=
  let '(negative, body) := strip_sign text in
  match read_until_dot body 0 with
  | Some (units, String d1 (String d2 EmptyString)) =>
      match value_of_digit d1, value_of_digit d2 with
      | Some a, Some b => Some (negative, 100 * units + 10 * a + b)
      | _, _ => None
      end
  | _ => None
  end.

(** [h] is the whole number nearest to [m * 2^e * 100], the even one of
    the two when the value lies exactly between them. *)
Definition is_nearest_hundredth (m : N) (e : Z) (h : Z) : bool :=
  if 0 <=? e then h =? Z.of_N m * 100 * 2 ^ e
  else
    let d := 2 ^ (- e) in
    let err := 2 * Z.abs (h * d - Z.of_N m * 100) in
    (err <? d) || ((err =? d) && Z.even h).

(** The doubles nearest to 42.57 and to 123.45. *)
Definition d42_57 : double := DFinite false 5991194879286313 (-47).
Definition d123_45 : double := DFinite false 8687021468732621 (-46).

(** ** Scenarios *)

(** A file system on which every sink opens, and one on which none does. *)
Definition opens_all : string → bool := λ _, true.
Definition opens_none : string → bool := λ _, false.

Definition snap1 : Snapshot := [("g", "123.45"); ("c", "7")].
Definition snap2 : Snapshot := [("g", "0.50"); ("c", "1")].

(** The thread opens the sink, enters the loop and blocks in [waitAndPop];
    the owner writes two snapshots and runs the destructor; the thread,
    woken up, runs until [run] returns; the destructor joins it. *)
Definition shutdown_history : list MetricsWriter.event :=
  [MetricsWriter.Thread "t0"; MetricsWriter.Thread "t1";
   MetricsWriter.Write snap1; MetricsWriter.Write snap2;
   MetricsWriter.DtorClearRunning; MetricsWriter.DtorStopQueue;
   MetricsWriter.Thread "t2"; MetricsWriter.Thread "t3";
   MetricsWriter.Thread "t4"; MetricsWriter.Thread "t5";
   MetricsWriter.DtorJoin].

(** The thread opens the sink; the owner writes a snapshot and enters the
    destructor; the thread then tests [running_]. *)
Definition early_exit_history : list MetricsWriter.event :=
  [MetricsWriter.Thread "t0"; MetricsWriter.Write snap1;
   MetricsWriter.DtorClearRunning; MetricsWriter.Thread "t1"].

(** ** Invariants of the writer *)

(** What holds in every state a writer can be in: [running_] is set
    exactly while the owner has not entered the destructor, the queue is
    stopped exactly from the destructor's second statement on, and [run]
    has returned only if [running_] was cleared. *)
Definition shutdown_inv (w : MetricsWriter.t) : Prop :=
  (MetricsWriter.running_ w = true ↔ MetricsWriter.owner w = MetricsWriter.Alive)
  ∧ (ThreadSafeQueue.stopped_ (MetricsWriter.queue_ w) = true
     ↔ MetricsWriter.owner w = MetricsWriter.QueueStopped
       ∨ MetricsWriter.owner w = MetricsWriter.Joined)
  ∧ (MetricsWriter.thread w = MetricsWriter.Returned →
     MetricsWriter.running_ w = false)
  ∧ (MetricsWriter.owner w = MetricsWriter.Joined →
     MetricsWriter.thread w = MetricsWriter.Returned).

(** The number of lines the thread can still write before it tests
    [running_] again. *)
Definition lines_in_flight (w : MetricsWriter.t) : nat :=
  match MetricsWriter.thread w with
  | MetricsWriter.AtWaitAndPop => 1
  | MetricsWriter.AtTryPop _ => 1
  | MetricsWriter.AtWrite _ => 1
  | _ => 0
  end.

(** A writer whose thread waits in [waitAndPop] while an empty snapshot
    and then [snap1] are queued. *)
Definition pending_writer : MetricsWriter.t :=
  {| MetricsWriter.filename_ := "metrics.txt";
     MetricsWriter.queue_ :=
       {| ThreadSafeQueue.queue_ := [[]; snap1]; ThreadSafeQueue.stopped_ := false |};
     MetricsWriter.running_ := true;
     MetricsWriter.thread := MetricsWriter.AtWaitAndPop;
     MetricsWriter.owner := MetricsWriter.Alive;
     MetricsWriter.file := [] |}.

(** The heap of [test_metrics_collector]: a gauge at 123.45 and a counter
    at 7. *)
Definition test_heap : gmap ptr MetricObj :=
  {[ 1%nat := OGauge (Gauge.update d123_45 (Gauge.new "test_gauge_collector"));
     2%nat := OCounter (Counter.increment 7 (Counter.new "test_counter_collector")) ]}.

(** A collector whose writer thread already waits in [waitAndPop]. *)
Definition waiting_collector : MetricsCollector.t :=
  {| MetricsCollector.metrics_ := [];
     MetricsCollector.writer_ :=
       {| MetricsWriter.filename_ := "test_metrics.txt";
          MetricsWriter.queue_ := ThreadSafeQueue.new;
          MetricsWriter.running_ := true;
          MetricsWriter.thread := MetricsWriter.AtWaitAndPop;
          MetricsWriter.owner := MetricsWriter.Alive;
          MetricsWriter.file := [] |} |}.

(** Two collections on one collector, the first before any metric is
    registered, both while the writer thread is held up; then two steps of
    the thread.  The result: the collector, the heap and the two
    snapshots as queued before the thread moved. *)
Definition empty_then_registered
    : option (MetricsCollector.t * gmap ptr MetricObj * list Snapshot) :=
  '(c1, h1) ← MetricsCollector.collectAndWrite waiting_collector test_heap;
  '(c2, h2) ← MetricsCollector.collectAndWrite
                (MetricsCollector.addMetric 2%nat
                   (MetricsCollector.addMetric 1%nat c1)) h1;
  w1 ← MetricsWriter.run_step opens_all "t1" (MetricsCollector.writer_ c2);
  w2 ← MetricsWriter.run_step opens_all "t2" w1;
  Some ({| MetricsCollector.metrics_ := MetricsCollector.metrics_ c2;
           MetricsCollector.writer_ := w2 |}, h2,
        ThreadSafeQueue.queue_ (MetricsWriter.queue_ (MetricsCollector.writer_ c2))).

(** The run of [test_metrics_collector]: register both metrics, collect,
    let the thread handle the snapshot, destroy the collector. *)
Definition collector_test_run
    : option (MetricsCollector.t * gmap ptr MetricObj) :=
  '(c1, h1) ← MetricsCollector.collectAndWrite
                (MetricsCollector.addMetric 2%nat
                   (MetricsCollector.addMetric 1%nat waiting_collector))
                test_heap;
  w ← MetricsWriter.execs opens_all
         [MetricsWriter.Thread "t1"; MetricsWriter.Thread "t2";
          MetricsWriter.Thread "2025-07-01 12:00:00.000";
          MetricsWriter.DtorClearRunning; MetricsWriter.DtorStopQueue;
          MetricsWriter.Thread "t4"; MetricsWriter.DtorJoin]
         (MetricsCollector.writer_ c1);
  Some ({| MetricsCollector.metrics_ := MetricsCollector.metrics_ c1;
           MetricsCollector.writer_ := w |}, h1).

(** ** Runs of the queue and of the thread *)

(** A run of [push] calls, first call first. *)
Definition pushes (ss : list Snapshot) (q : ThreadSafeQueue.t) : ThreadSafeQueue.t :=
  fold_left (λ acc data, ThreadSafeQueue.push data acc) ss q.

(** The thread alone, one step per clock reading, until it can no longer
    move or the readings are used up. *)
Fixpoint run_thread (can_open : string → bool) (nows : list string)
    (w : MetricsWriter.t) : MetricsWriter.t :=
  match nows with
  | [] => w
  | now :: nows' =>
      match MetricsWriter.run_step can_open now w with
      | Some w' => run_thread can_open nows' w'
      | None => w
      end
  end.

(** One turn of the loop of [run] takes four steps, the fourth of which
    writes: the clock readings that end up in the sink. *)
Fixpoint stamps (nows : list string) : list string :=
  match nows with
  | _ :: _ :: _ :: now :: nows' => now :: stamps nows'
  | _ => []
  end.

(** The snapshot the thread has taken out of the queue and will still
    write. *)
Definition inflight (w : MetricsWriter.t) : list Snapshot :=
  match MetricsWriter.thread w with
  | MetricsWriter.AtTryPop metrics | MetricsWriter.AtWrite metrics =>
      if is_empty metrics then [] else [metrics]
  | _ => []
  end.

(** The sink against the snapshots [ws] written so far: [ws] splits into
    the snapshots the thread is done with, the one in flight and the
    queued ones; the lines of the sink render, in order, some of the
    snapshots the thread is done with, none of them empty. *)
Definition sink_inv (ws : list Snapshot) (w : MetricsWriter.t) : Prop :=
  ∃ (handled : list Snapshot) (lines : list (string * Snapshot)),
    ws = handled ++ inflight w ++ ThreadSafeQueue.queue_ (MetricsWriter.queue_ w)
    ∧ MetricsWriter.file w = (λ l, MetricsWriter.format_line l.1 l.2) <$> lines
    ∧ lines.*2 `sublist_of` handled
    ∧ Forall (λ l, l.2 ≠ []) lines.

(** ** Producers racing with a collection *)

Module CollectRace.

(** One counter that producers increment while the collector runs over
    it.  [collectAndWrite] locks the metric twice, once inside
    [getValueAsString] and once inside [reset]; an [increment] can take
    the lock in between. *)
Inductive action : Type :=
  | Increment (arg : option Z)   (* a producer calls [increment] *)
  | PassRead                     (* the pass calls [getValueAsString] *)
  | PassReset.                   (* the pass calls [reset] *)

Record t : Type := {
  counter : Counter.t;
  in_pass : bool;           (* the pass stands between its two calls *)
  reported : list Z;        (* the values the passes have read *)
  overwritten : Z           (* deltas added between a read and its reset *)
}.

Definition start (c : Counter.t) : t :=
  {| counter := c; in_pass := false; reported := []; overwritten := 0 |}.

(** [None]: the collector cannot do this now (it is one thread, and the
    pass runs under the collector's mutex). *)
Definition step (a : action) (s : t) : option t :=
  match a with
  | Increment arg =>
      Some {| counter := Counter.increment (Counter.delta_of arg) (counter s);
              in_pass := in_pass s;
              reported := reported s;
              overwritten :=
                if in_pass s then overwritten s + Counter.delta_of arg
                else overwritten s |}
  | PassRead =>
      if in_pass s then None
      else Some {| counter := counter s; in_pass := true;
                   reported := reported s ++ [Counter.value_ (counter s)];
                   overwritten := overwritten s |}
  | PassReset =>
      if in_pass s then
        Some {| counter := Counter.reset (counter s); in_pass := false;
                reported := reported s; overwritten := overwritten s |}
      else None
  end.

Fixpoint steps (acts : list action) (s : t) : option t :=
  match acts with
  | [] => Some s
  | a :: acts' =>
      match step a s with
      | None => None
      | Some s' => steps acts' s'
      end
  end.

(** The sum of the deltas of the [increment] calls of a history. *)
Fixpoint total (acts : list action) : Z :=
  match acts with
  | [] => 0
  | Increment arg :: acts' => Counter.delta_of arg + total acts'
  | _ :: acts' => total acts'
  end.

Definition sum_list (l : list Z) : Z := foldr Z.add 0 l.

End CollectRace.

(** Every pass of the history resets right after it has read, with no
    [increment] in between. *)
Fixpoint atomic_passes (acts : list CollectRace.action) : bool :=
  match acts with
  | [] => true
  | CollectRace.Increment _ :: acts' => atomic_passes acts'
  | CollectRace.PassRead :: CollectRace.PassReset :: acts' => atomic_passes acts'
  | _ => false
  end.

(** What has been added to the counter is what was reported, what was
    overwritten, and, outside a pass, what the counter holds. *)
Definition accounted (s : CollectRace.t) : Z :=
  CollectRace.sum_list (CollectRace.reported s) + CollectRace.overwritten s
  + (if CollectRace.in_pass s then 0
     else Counter.value_ (CollectRace.counter s)).

(** ** The logger *)

Module Logger.

Record t : Type := { log_filename_ : string }.

(** The private constructor, and the one instance [getInstance] returns. *)
Definition new : t := {| log_filename_ := "metrics.log" |}.
Definition getInstance : t := new.

(** [logError(message)]: the content of each file after the call.
    [can_open] tells whether the stream opened in append mode is open;
    [now] is the rendered clock reading. *)
Definition logError (can_open : string → bool) (now message : string) (l : t)
    (files : gmap string (list string)) : gmap string (list string) :=
  if can_open (log_filename_ l) then
    <[log_filename_ l :=
        default [] (files !! log_filename_ l)
        ++ [now +:+ " [ERROR] " +:+ message +:+ newline]]> files
  else files.

(** [logInfo(message)] *)
Definition logInfo (can_open : string → bool) (now message : string) (l : t)
    (files : gmap string (list string)) : gmap string (list string) :=
  if can_open (log_filename_ l) then
    <[log_filename_ l :=
        default [] (files !! log_filename_ l)
        ++ [now +:+ " [INFO] " +:+ message +:+ newline]]> files
  else files.

Inductive call : Type :=
  | Error (now message : string)
  | Info (now message : string).

(** The record a call adds to the log. *)
Definition record_of (c : call) : string :=
  match c with
  | Error now message => now +:+ " [ERROR] " +:+ message +:+ newline
  | Info now message => now +:+ " [INFO] " +:+ message +:+ newline
  end.

Definition log (can_open : string → bool) (c : call) (l : t)
    (files : gmap string (list string)) : gmap string (list string) :=
  match c with
  | Error now message => logError can_open now message l files
  | Info now message => logInfo can_open now message l files
  end.

(** A run of calls on one logger, first call first. *)
Definition logs (can_open : string → bool) (cs : list call) (l : t)
    (files : gmap string (list string)) : gmap string (list string) :=
  fold_left (λ acc c, log can_open c l acc) cs files.

End Logger.

(** ** The test runner *)

Module MetricsTests.

(** An entry of [TESTS]: the name and the test, a function without
    arguments that returns whether it passed. *)
Record TestInfo : Type := { name : string; test_func : unit → bool }.




(** The number of tests of the array that report a failure. *)
Definition failures (tests : list TestInfo) : nat :=
  length (filter (λ test, test_func test () = false) tests).

End MetricsTests.

(** ** Tactics *)

(** Case analysis on a step of the thread: one case per path through
    [run_step], with the equations that select the path. *)
Ltac run_step_cases Hs :=
  unfold MetricsWriter.run_step, ThreadSafeQueue.waitAndPop,
    ThreadSafeQueue.waitAndPop_outcome, ThreadSafeQueue.tryPop in Hs;
  repeat match type of Hs with
    | context [match ?x with _ => _ end] =>
        lazymatch x with
        | context [match _ with _ => _ end] => fail
        | _ => destruct x eqn:?
        end
    end;
  simplify_eq; cbn in *.

(** Case analysis on an event of the owner. *)
Ltac owner_cases w He :=
  let Ht := fresh "Ht" in
  let Ho := fresh "Ho" in
  unfold MetricsWriter.exec in He;
  destruct (MetricsWriter.thread w) eqn:Ht, (MetricsWriter.owner w) eqn:Ho;
  simplify_eq; cbn; rewrite ?Ht, ?Ho.

(** Try to end the destructor after [k] steps of the thread. *)
Ltac join_after k :=
  exists k; eexists; split; [lia|]; cbn;
  repeat match goal with H : _ = true |- _ => rewrite H; cbn end;
  split; [reflexivity|];
  split_and!; [reflexivity | reflexivity | cbn; rewrite ?length_app; cbn; lia].

(** * Properties *)

(** ** Gauge *)

Lemma updates_snoc (vs : list double) (v : double) (g : Gauge.t) :
  Gauge.updates (vs ++ [v]) g = Gauge.update v (Gauge.updates vs g).
Proof. unfold Gauge.updates. by rewrite fold_left_app. Qed.

Lemma updates_name (vs : list double) (g : Gauge.t) :
  Gauge.name_ (Gauge.updates vs g) = Gauge.name_ g.
Proof.
  revert g. induction vs as [|v vs IH]; intros g; [done|].
  cbn. by rewrite IH.
Qed.

Lemma digit_is_digit (n : Z) : is_digit (digit n) = true.
Proof.
  unfold digit.
  assert (H : 0 <= n mod 10 < 10) by (apply Z.mod_pos_bound; lia).
  remember (n mod 10) as k eqn:Hk. clear Hk.
  assert (Hc : k = 0 ∨ k = 1 ∨ k = 2 ∨ k = 3 ∨ k = 4 ∨ k = 5 ∨ k = 6
               ∨ k = 7 ∨ k = 8 ∨ k = 9) by lia.
  repeat (destruct Hc as [-> | Hc]; [reflexivity|]). by subst.
Qed.

Lemma after_dot_uint (d : Decimal.uint) (s : string) :
  after_dot (NilEmpty.string_of_uint d +:+ s) = after_dot s.
Proof. induction d; cbn; auto. Qed.

Lemma after_dot_uint0 (d : Decimal.uint) (s : string) :
  after_dot (NilZero.string_of_uint d +:+ s) = after_dot s.
Proof. destruct d; first [reflexivity | exact (after_dot_uint _ s)]. Qed.

Lemma after_dot_to_string (z : Z) (s : string) :
  after_dot (to_string z +:+ s) = after_dot s.
Proof.
  unfold to_string. destruct (Z.to_int z) as [d | d];
    exact (after_dot_uint0 d s).
Qed.

Lemma after_dot_sign (b : bool) (s : string) :
  after_dot (sign_prefix b +:+ s) = after_dot s.
Proof. by destruct b. Qed.

Lemma after_dot_point (s : string) : after_dot ("." +:+ s) = Some s.
Proof. reflexivity. Qed.

Lemma fixed2_finite_shape (s : bool) (m : N) (e : Z) :
  two_fraction_digits (fixed2 (DFinite s m e)) = true.
Proof.
  unfold two_fraction_digits, fixed2. cbv zeta.
  rewrite after_dot_sign, after_dot_to_string, after_dot_point.
  by rewrite !digit_is_digit.
Qed.

Lemma value_of_digit_digit (n : Z) : value_of_digit (digit n) = Some (n mod 10).
Proof.
  unfold digit.
  assert (H : 0 <= n mod 10 < 10) by (apply Z.mod_pos_bound; lia).
  remember (n mod 10) as k eqn:Hk. clear Hk.
  assert (Hc : k = 0 ∨ k = 1 ∨ k = 2 ∨ k = 3 ∨ k = 4 ∨ k = 5 ∨ k = 6
               ∨ k = 7 ∨ k = 8 ∨ k = 9) by lia.
  repeat (destruct Hc as [-> | Hc]; [reflexivity|]). by subst.
Qed.

Lemma read_until_dot_digit (c : ascii) (k : Z) (rest : string) (acc : Z) :
  Ascii.eqb c "." = false →
  value_of_digit c = Some k →
  read_until_dot (String c rest) acc = read_until_dot rest (10 * acc + k).
Proof. intros Hc Hk. cbn [read_until_dot]. by rewrite Hc, Hk. Qed.

Lemma read_uint_acc (d : Decimal.uint) (p : positive) (rest : string) :
  read_until_dot (NilEmpty.string_of_uint d +:+ "." +:+ rest) (Z.pos p)
  = Some (Z.pos (Pos.of_uint_acc d p), rest).
Proof.
  revert p. induction d as [|d IH|d IH|d IH|d IH|d IH|d IH|d IH|d IH|d IH|d IH];
    intros p; [reflexivity|..];
    cbn [NilEmpty.string_of_uint Pos.of_uint_acc]; rewrite <- IH;
    (etrans; [apply read_until_dot_digit; [reflexivity | by vm_compute]|]);
    f_equal; lia.
Qed.

Lemma read_uint (d : Decimal.uint) (rest : string) :
  read_until_dot (NilEmpty.string_of_uint d +:+ "." +:+ rest) 0
  = Some (Z.of_N (Pos.of_uint d), rest).
Proof.
  induction d as [|d IH|d IH|d IH|d IH|d IH|d IH|d IH|d IH|d IH|d IH];
    [reflexivity|exact IH|..]; exact (read_uint_acc d _ rest).
Qed.

Lemma read_uint0 (d : Decimal.uint) (rest : string) :
  read_until_dot (NilZero.string_of_uint d +:+ "." +:+ rest) 0
  = Some (Z.of_N (Pos.of_uint d), rest).
Proof. destruct d; first [reflexivity | exact (read_uint _ rest)]. Qed.

Lemma strip_sign_uint (s : bool) (d : Decimal.uint) (rest : string) :
  strip_sign (sign_prefix s +:+ NilZero.string_of_uint d +:+ rest)
  = (s, NilZero.string_of_uint d +:+ rest).
Proof. destruct s, d; reflexivity. Qed.

(** The decimal text of a number that is not negative, and its value. *)
Lemma to_string_nonneg (z : Z) :
  0 <= z →
  ∃ d, to_string z = NilZero.string_of_uint d ∧ Z.of_N (Pos.of_uint d) = z.
Proof.
  intros Hz. destruct z as [|p|p]; [| |lia].
  - by exists Decimal.zero.
  - exists (Pos.to_uint p). split; [reflexivity|].
    by rewrite DecimalPos.Unsigned.of_to.
Qed.

Lemma hundredths_nonneg (m : N) (e : Z) : 0 <= hundredths m e.
Proof.
  unfold hundredths. cbv zeta. destruct (0 <=? e) eqn:He.
  - apply Z.leb_le in He. apply Z.mul_nonneg_nonneg; [lia|].
    by apply Z.pow_nonneg.
  - apply Z.leb_gt in He.
    assert (Hd : 0 < 2 ^ (- e)) by (apply Z.pow_pos_nonneg; lia).
    assert (Hq : 0 <= (Z.of_N m * 100) `div` 2 ^ (- e))
      by (apply Z.div_pos; lia).
    repeat case_match; lia.
Qed.

Lemma hundredths_is_nearest (m : N) (e : Z) :
  is_nearest_hundredth m e (hundredths m e) = true.
Proof.
  unfold is_nearest_hundredth, hundredths. cbv zeta.
  destruct (0 <=? e) eqn:He; [by apply Z.eqb_eq|].
  apply Z.leb_gt in He.
  assert (Hd : 0 < 2 ^ (- e)) by (apply Z.pow_pos_nonneg; lia).
  pose proof (Z.div_mod (Z.of_N m * 100) (2 ^ (- e)) ltac:(lia)) as Hdm.
  pose proof (Z.mod_pos_bound (Z.of_N m * 100) (2 ^ (- e)) Hd) as Hr.
  remember (2 ^ (- e)) as d eqn:Ed. clear Ed.
  remember (Z.of_N m * 100) as n eqn:En. clear En.
  remember (n `div` d) as q eqn:Eq. clear Eq.
  remember (n `mod` d) as r eqn:Er. clear Er.
  subst n.
  destruct (2 * r <? d) eqn:H1.
  { apply Z.ltb_lt in H1. apply orb_true_iff. left. apply Z.ltb_lt. nia. }
  apply Z.ltb_ge in H1.
  destruct (d <? 2 * r) eqn:H2.
  { apply Z.ltb_lt in H2. apply orb_true_iff. left. apply Z.ltb_lt. nia. }
  apply Z.ltb_ge in H2.
  apply orb_true_iff. right. apply andb_true_iff.
  destruct (Z.even q) eqn:H3.
  - split; [apply Z.eqb_eq; nia|done].
  - split; [apply Z.eqb_eq; nia|].
    by rewrite Z.add_1_r, Z.even_succ, <- Z.negb_even, H3.
Qed.

(** The rounding rule leaves no choice. *)
Lemma nearest_hundredth_unique (m : N) (e : Z) (h h' : Z) :
  is_nearest_hundredth m e h = true →
  is_nearest_hundredth m e h' = true →
  h = h'.
Proof.
  unfold is_nearest_hundredth. cbv zeta.
  destruct (0 <=? e) eqn:He.
  { intros H1%Z.eqb_eq H2%Z.eqb_eq. congruence. }
  apply Z.leb_gt in He.
  assert (Hd : 0 < 2 ^ (- e)) by (apply Z.pow_pos_nonneg; lia).
  remember (2 ^ (- e)) as d eqn:Ed. clear Ed.
  remember (Z.of_N m * 100) as n eqn:En. clear En.
  intros H1 H2.
  apply orb_true_iff in H1. apply orb_true_iff in H2.
  destruct (Z.eq_dec h h') as [|Hne]; [done|exfalso].
  assert (Hclose : h' = h + 1 ∨ h = h' + 1 ∨ 2 <= Z.abs (h - h')) by lia.
  destruct H1 as [H1%Z.ltb_lt | [H1%Z.eqb_eq E1]%andb_true_iff];
    destruct H2 as [H2%Z.ltb_lt | [H2%Z.eqb_eq E2]%andb_true_iff];
    destruct Hclose as [-> | [-> | Hfar]]; try nia;
    rewrite Z.add_1_r, Z.even_succ, <- Z.negb_even in *;
    destruct (Z.even _); done.
Qed.

Lemma fixed2_reads_back (s : bool) (m : N) (e : Z) :
  read_fixed2 (fixed2 (DFinite s m e)) = Some (s, hundredths m e).
Proof.
  unfold fixed2, read_fixed2. cbv zeta.
  pose proof (hundredths_nonneg m e) as Hh.
  remember (hundredths m e) as h eqn:Eh. clear Eh.
  destruct (to_string_nonneg (h `div` 100)) as (d & -> & Hd);
    [apply Z.div_pos; lia|].
  rewrite strip_sign_uint, read_uint0, !value_of_digit_digit, Hd.
  do 2 f_equal. Z.div_mod_to_equations. lia.
Qed.

(** C8, as the claim states it, fails: after [update] with an infinity
    or a NaN the text has no fractional digits at all. *)
Lemma Gauge_infinity_has_no_digits :
  getValueAsString (Gauge.updates [d42_57; DInf false] (Gauge.new "g")) = "inf"
  ∧ two_fraction_digits
      (getValueAsString (Gauge.updates [d42_57; DInf false] (Gauge.new "g")))
    = false
  ∧ getValueAsString (Gauge.updates [DNaN true] (Gauge.new "g")) = "-nan"
  ∧ read_fixed2 (getValueAsString (Gauge.updates [DNaN true] (Gauge.new "g")))
    = None.
Proof. by split_and!. Qed.

(** C8, amended.  After any run of [update] calls on a gauge whose last
    value is finite, [getValueAsString] is that value rounded to the
    nearest hundredth, ties to the even one, written in fixed notation:
    the text has exactly two digits after its point, a minus sign in front
    exactly when the sign bit of the value is set, and read as a decimal
    number it denotes the one whole number of hundredths that the
    rounding rule allows.  After an infinity or a NaN the text is "inf"
    or "nan" behind the sign.  After [reset] the text is "0.00". *)
Theorem Gauge_last_update_rounded :
  (∀ (g : Gauge.t) (vs : list double) (s : bool) (m : N) (e : Z),
      getName (Gauge.updates (vs ++ [DFinite s m e]) g) = getName g
      ∧ two_fraction_digits
          (getValueAsString (Gauge.updates (vs ++ [DFinite s m e]) g)) = true
      ∧ ∃ h : Z,
          read_fixed2 (getValueAsString (Gauge.updates (vs ++ [DFinite s m e]) g))
          = Some (s, h)
          ∧ is_nearest_hundredth m e h = true
          ∧ ∀ h', is_nearest_hundredth m e h' = true → h' = h)
  ∧ (∀ (g : Gauge.t) (vs : list double) (s : bool),
      getValueAsString (Gauge.updates (vs ++ [DInf s]) g) = sign_prefix s +:+ "inf"
      ∧ getValueAsString (Gauge.updates (vs ++ [DNaN s]) g) = sign_prefix s +:+ "nan")
  ∧ (∀ g : Gauge.t, getValueAsString (reset g) = "0.00").
Proof.
  split_and!.
  - intros g vs s m e. rewrite updates_snoc.
    change (getValueAsString (Gauge.update (DFinite s m e) (Gauge.updates vs g)))
      with (fixed2 (DFinite s m e)).
    split_and!.
    + cbn. unfold Gauge.getName. cbn. apply updates_name.
    + apply fixed2_finite_shape.
    + exists (hundredths m e). split_and!.
      * apply fixed2_reads_back.
      * apply hundredths_is_nearest.
      * intros h' Hh'. eapply nearest_hundredth_unique; [exact Hh'|].
        apply hundredths_is_nearest.
  - intros g vs s. by rewrite !updates_snoc.
  - done.
Qed.

Lemma Gauge_last_update_rounded_witness :
  ∃ h : Z,
    read_fixed2
      (getValueAsString (Gauge.updates ([dzero] ++ [d42_57]) (Gauge.new "test_gauge")))
    = Some (false, h)
    ∧ is_nearest_hundredth 5991194879286313 (-47) h = true
    ∧ h = 4257.
Proof.
  destruct (proj1 Gauge_last_update_rounded (Gauge.new "test_gauge") [dzero]
              false 5991194879286313%N (-47)) as (_ & _ & h & Hread & Hnear & _).
  exists h. split; [exact Hread|]. split; [exact Hnear|].
  vm_compute in Hread. congruence.
Defined.

(** The assertions of [test_gauge]. *)
Example test_gauge :
  let g := Gauge.update d42_57 (Gauge.new "test_gauge") in
  getValueAsString g = "42.57" ∧ getValueAsString (reset g) = "0.00".
Proof. by vm_compute. Qed.

(** ** Counter *)

Lemma wrap_int_id (z : Z) : in_int z → wrap_int z = z.
Proof.
  unfold in_int, wrap_int, INT_MIN, INT_MAX. intros H.
  rewrite Z.mod_small; lia.
Qed.

Lemma wrap_int_add_l (a b : Z) : wrap_int (wrap_int a + b) = wrap_int (a + b).
Proof.
  unfold wrap_int. f_equal.
  replace ((a + 2 ^ 31) `mod` 2 ^ 32 - 2 ^ 31 + b + 2 ^ 31)
    with ((a + 2 ^ 31) `mod` 2 ^ 32 + b) by lia.
  rewrite Zplus_mod_idemp_l. f_equal. lia.
Qed.

Lemma increments_name (args : list (option Z)) (c : Counter.t) :
  Counter.name_ (Counter.increments args c) = Counter.name_ c.
Proof.
  revert c. induction args as [|a args IH]; intros c; [done|].
  cbn. by rewrite IH.
Qed.

(** In the model the stored value is the sum of the deltas reduced to the
    range of [int]. *)
Lemma increments_value (args : list (option Z)) (c : Counter.t) (z : Z) :
  Counter.value_ c = wrap_int z →
  Counter.value_ (Counter.increments args c)
  = wrap_int (z + Counter.sum_deltas args).
Proof.
  revert c z. induction args as [|a args IH]; intros c z Hz; cbn.
  - by rewrite Z.add_0_r.
  - rewrite (IH _ (z + Counter.delta_of a)).
    + f_equal. unfold Counter.sum_deltas. lia.
    + cbn. by rewrite Hz, wrap_int_add_l.
Qed.

Lemma increments_from_zero (args : list (option Z)) (c : Counter.t) :
  Counter.value_ (Counter.increments args (Counter.reset c))
  = wrap_int (Counter.sum_deltas args).
Proof. by rewrite (increments_value args _ 0). Qed.

(** C9, as the claim states it, fails: [increment(INT_MAX)] followed by
    [increment()] does not show 2147483648. *)
Lemma Counter_sum_overflows :
  getValueAsString (Counter.increments [Some INT_MAX; None] (Counter.new "c"))
  = "-2147483648"
  ∧ to_string (Counter.sum_deltas [Some INT_MAX; None]) = "2147483648"
  ∧ in_int (Counter.delta_of (Some INT_MAX)) ∧ in_int (Counter.delta_of None)
  ∧ getValueAsString (Counter.increments [Some INT_MAX; None] (Counter.new "c"))
    ≠ to_string (Counter.sum_deltas [Some INT_MAX; None]).
Proof.
  split_and!; [by vm_compute | by vm_compute | | | by vm_compute];
    unfold in_int; vm_compute; split; discriminate.
Qed.

(** C9, amended.  For every run of [increment] calls since the last
    [reset] (or since construction) whose running sums all fit an [int],
    [getValueAsString] renders the integer sum of the deltas, a call
    without argument counting 1; after [reset] it is "0". *)
Theorem Counter_sum_of_deltas (c : Counter.t) (args : list (option Z)) :
  (∀ k : nat, in_int (Counter.sum_deltas (take k args))) →
  getValueAsString (Counter.increments args (reset c))
  = to_string (Counter.sum_deltas args)
  ∧ getValueAsString (Counter.increments args (Counter.new (getName c)))
    = to_string (Counter.sum_deltas args)
  ∧ getValueAsString (reset (Counter.increments args (reset c))) = "0".
Proof.
  intros Hk.
  assert (Hs : in_int (Counter.sum_deltas args)).
  { specialize (Hk (length args)). by rewrite firstn_all in Hk. }
  split_and!; [| |done].
  - cbn. unfold Counter.getValueAsString.
    by rewrite increments_from_zero, wrap_int_id.
  - cbn. unfold Counter.getValueAsString.
    by rewrite (increments_value args _ 0), wrap_int_id.
Qed.

Lemma Counter_sum_of_deltas_witness :
  getValueAsString
    (Counter.increments [Some 10; None; Some (-4); Some 0] (reset (Counter.new "c")))
  = "7".
Proof.
  refine (proj1 (Counter_sum_of_deltas (Counter.new "c")
                   [Some 10; None; Some (-4); Some 0] _)).
  intros k. do 5 (destruct k as [|k]; [by vm_compute|]). by vm_compute.
Defined.

(** The assertions of [test_counter]. *)
Example test_counter :
  let c := Counter.increment 10 (Counter.new "test_counter") in
  getValueAsString c = "10" ∧ getValueAsString (reset c) = "0".
Proof. by vm_compute. Qed.

(** ** The hand-off queue *)

Section QueueFacts.

Import ThreadSafeQueue.

Implicit Types (q : ThreadSafeQueue.t) (data front : Snapshot).

Lemma outcome_nil q :
  queue_ q = [] →
  waitAndPop_outcome q = if stopped_ q then Absent else Blocked.
Proof.
  intros Hq. unfold waitAndPop_outcome, wait_pred. rewrite Hq. cbn.
  by destruct (stopped_ q).
Qed.

Lemma outcome_cons q front rest :
  queue_ q = front :: rest →
  waitAndPop_outcome q = Popped front {| queue_ := rest; stopped_ := stopped_ q |}.
Proof.
  intros Hq. unfold waitAndPop_outcome, wait_pred. by rewrite Hq.
Qed.

(** A blocked call goes on as soon as one element is pushed, and takes
    that element. *)
Lemma blocked_until_push q data :
  waitAndPop_outcome q = Blocked →
  waitAndPop_outcome (push data q)
  = Popped data {| queue_ := []; stopped_ := false |}.
Proof.
  destruct q as [[|x xs] st]; unfold waitAndPop_outcome, wait_pred; cbn.
  - by destruct st.
  - done.
Qed.

(** A blocked call returns empty-handed once the queue is stopped. *)
Lemma blocked_until_stop q :
  waitAndPop_outcome q = Blocked → waitAndPop_outcome (stop q) = Absent.
Proof.
  destruct q as [[|x xs] st]; unfold waitAndPop_outcome, wait_pred; cbn.
  - by destruct st.
  - done.
Qed.

Lemma absent_stopped_empty q :
  waitAndPop_outcome q = Absent → stopped_ q = true ∧ queue_ q = [].
Proof.
  destruct (queue_ q) as [|x xs] eqn:Hq.
  - rewrite (outcome_nil q Hq). by destruct (stopped_ q).
  - by rewrite (outcome_cons q x xs Hq).
Qed.

(** C4. [waitAndPop] returns without delivering a snapshot exactly when
    the queue is stopped and empty, and then leaves its argument and the
    queue as they were; it stays blocked exactly when the queue is empty
    and not stopped; on a non-empty queue it removes the head and
    returns it.  No outcome is an error. *)
Theorem waitAndPop_absent_iff q data :
  (waitAndPop_outcome q = Absent ↔ stopped_ q = true ∧ queue_ q = [])
  ∧ (waitAndPop_outcome q = Blocked ↔ stopped_ q = false ∧ queue_ q = [])
  ∧ (∀ front rest,
       queue_ q = front :: rest →
       waitAndPop data q
       = Some (front, {| queue_ := rest; stopped_ := stopped_ q |}))
  ∧ (waitAndPop_outcome q = Absent → waitAndPop data q = Some (data, q)).
Proof.
  split_and!.
  - destruct (queue_ q) as [|x xs] eqn:Hq.
    + rewrite (outcome_nil q Hq). destruct (stopped_ q); split; try done.
      by intros [? _].
    + rewrite (outcome_cons q x xs Hq). split; [done | by intros [_ ?]].
  - destruct (queue_ q) as [|x xs] eqn:Hq.
    + rewrite (outcome_nil q Hq). destruct (stopped_ q); split; try done.
      by intros [? _].
    + rewrite (outcome_cons q x xs Hq). split; [done | by intros [_ ?]].
  - intros front rest Hq. unfold waitAndPop. by rewrite (outcome_cons q front rest Hq).
  - intros Ha. unfold waitAndPop. by rewrite Ha.
Qed.

Lemma waitAndPop_absent_iff_witness :
  waitAndPop [("stale", "1")] {| queue_ := []; stopped_ := true |}
  = Some ([("stale", "1")], {| queue_ := []; stopped_ := true |})
  ∧ waitAndPop [] {| queue_ := [[("g", "0.00")]; []]; stopped_ := true |}
    = Some ([("g", "0.00")], {| queue_ := [[]]; stopped_ := true |}).
Proof.
  split.
  - apply (waitAndPop_absent_iff {| queue_ := []; stopped_ := true |}).
    reflexivity.
  - apply (waitAndPop_absent_iff
             {| queue_ := [[("g", "0.00")]; []]; stopped_ := true |}).
    reflexivity.
Defined.

Lemma run_op_fifo (o : op) q q' (out : list Snapshot) :
  run_op o q = Some (q', out) →
  queue_ q ++ pushed [o] = out ++ queue_ q'.
Proof.
  destruct o; cbn.
  - intros [= <- <-]. done.
  - unfold tryPop. destruct (queue_ q) as [|x xs] eqn:Hq.
    + intros [= <- <-]. by rewrite Hq, app_nil_r.
    + intros [= <- <-]. by rewrite app_nil_r.
  - destruct (queue_ q) as [|x xs] eqn:Hq.
    + rewrite (outcome_nil q Hq). destruct (stopped_ q); [|done].
      intros [= <- <-]. by rewrite Hq.
    + rewrite (outcome_cons q x xs Hq). intros [= <- <-].
      by rewrite app_nil_r.
  - intros [= <- <-]. by rewrite app_nil_r.
Qed.

Lemma run_ops_fifo (os : list op) q q' (outs : list Snapshot) :
  run_ops os q = Some (q', outs) →
  queue_ q ++ pushed os = outs ++ queue_ q'.
Proof.
  revert q outs. induction os as [|o os IH]; intros q outs; cbn.
  - intros [= <- <-]. by rewrite app_nil_r.
  - destruct (run_op o q) as [[q1 out]|] eqn:Ho; [|done].
    destruct (run_ops os q1) as [[q2 outs']|] eqn:Hos; [|done].
    intros [= <- <-].
    apply run_op_fifo in Ho. apply IH in Hos.
    rewrite <- app_assoc, <- Hos, app_assoc, <- Ho, <- app_assoc.
    f_equal. destruct o; cbn; by rewrite ?app_nil_r.
Qed.



(** Once the queue is empty again, the consumer has received exactly
    what was pushed. *)
Corollary queue_drained_all (os : list op) q (outs : list Snapshot) :
  run_ops os new = Some (q, outs) → queue_ q = [] → outs = pushed os.
Proof.
  intros H Hq. apply run_ops_fifo in H. by rewrite Hq, app_nil_r in H.
Qed.

Lemma drain_all (l : list Snapshot) (st : bool) :
  drain (length l) {| queue_ := l; stopped_ := st |}
  = (l, {| queue_ := []; stopped_ := st |}).
Proof.
  induction l as [|x l IH]; [done|]. cbn. by rewrite IH.
Qed.

(** C10. [stop] changes the flag only: the pending snapshots are the
    same sequence, they can all still be popped, in order, and a second
    [stop] changes nothing. *)
Theorem stop_keeps_pending q :
  queue_ (stop q) = queue_ q
  ∧ stopped_ (stop q) = true
  ∧ stop (stop q) = stop q
  ∧ drain (length (queue_ q)) (stop q)
    = (queue_ q, {| queue_ := []; stopped_ := true |})
  ∧ waitAndPop_outcome (stop q)
    = match queue_ q with
      | [] => Absent
      | front :: rest => Popped front {| queue_ := rest; stopped_ := true |}
      end.
Proof.
  split_and!; try done.
  - unfold stop. cbn. apply drain_all.
  - destruct q as [[|x xs] st]; done.
Qed.

End QueueFacts.


(** ** The writer *)

Section WriterFacts.

Import MetricsWriter.

Variable can_open : string → bool.

Implicit Types (w : MetricsWriter.t) (now : string).

Lemma set_queue_same w : set_queue (queue_ w) w = w.
Proof. by destruct w. Qed.

(** The thread leaves the loop at one place only, the loop test, and
    only on a cleared [running_]. *)
Lemma returns_at_loop_head now w w' :
  run_step can_open now w = Some w' →
  thread w' = Returned →
  thread w = LoopHead ∧ running_ w = false.
Proof. intros Hs Hr. run_step_cases Hs; done. Qed.

(** A step of the thread leaves the flags and the owner alone. *)
Lemma run_step_frame now w w' :
  run_step can_open now w = Some w' →
  running_ w' = running_ w
  ∧ owner w' = owner w
  ∧ filename_ w' = filename_ w
  ∧ ThreadSafeQueue.stopped_ (queue_ w') = ThreadSafeQueue.stopped_ (queue_ w)
  ∧ thread w ≠ Returned ∧ thread w ≠ Terminated.
Proof. intros Hs. run_step_cases Hs; done. Qed.

Lemma step_loop_head now w :
  thread w = LoopHead →
  run_step can_open now w
  = Some (set_thread (if running_ w then AtWaitAndPop else Returned) w).
Proof. unfold run_step. intros ->. by destruct (running_ w). Qed.

Lemma step_absent now w :
  thread w = AtWaitAndPop →
  ThreadSafeQueue.waitAndPop_outcome (queue_ w) = ThreadSafeQueue.Absent →
  run_step can_open now w = Some (set_thread (AtTryPop []) w).
Proof.
  unfold run_step, ThreadSafeQueue.waitAndPop. intros -> ->.
  by rewrite set_queue_same.
Qed.

Lemma step_try_pop_empty now w :
  thread w = AtTryPop [] →
  ∃ w', run_step can_open now w = Some w'
        ∧ file w' = file w
        ∧ running_ w' = running_ w
        ∧ (thread w' = LoopHead ∨ thread w' = AtWrite []).
Proof.
  unfold run_step, ThreadSafeQueue.tryPop. intros ->. cbn.
  destruct (ThreadSafeQueue.queue_ (queue_ w)); eexists; split_and!;
    try reflexivity; auto.
Qed.

Lemma step_write_empty now w :
  thread w = AtWrite [] →
  run_step can_open now w = Some (set_thread LoopHead w).
Proof. unfold run_step. by intros ->. Qed.

Lemma exec_thread now w w' :
  exec can_open (Thread now) w = Some w' → run_step can_open now w = Some w'.
Proof. unfold exec. destruct (thread w), (owner w); done. Qed.

Lemma exec_preserves_inv (e : event) w w' :
  shutdown_inv w → exec can_open e w = Some w' → shutdown_inv w'.
Proof.
  unfold shutdown_inv. intros (Hrun & Hstop & Hret & Hjoin) He.
  destruct e as [now|m| | |].
  - apply exec_thread in He.
    pose proof (returns_at_loop_head now w w' He) as Hhead.
    destruct (run_step_frame now w w' He) as (-> & -> & _ & -> & Hnr & _).
    split_and!; auto.
    + intros Hr. by destruct (Hhead Hr).
    + intros Hj. by destruct (Hnr (Hjoin Hj)).
  - owner_cases w He; rewrite ?Ho in *; split_and!; auto.
  - owner_cases w He; split_and!; try done; intuition congruence.
  - owner_cases w He; rewrite ?Ho in *; split_and!; try done;
      intuition congruence.
  - owner_cases w He; split_and!; try done; intuition congruence.
Qed.

Lemma execs_preserve_inv (es : list event) w w' :
  shutdown_inv w → execs can_open es w = Some w' → shutdown_inv w'.
Proof.
  revert w. induction es as [|e es IH]; intros w Hinv; cbn.
  - by intros [= <-].
  - destruct (exec can_open e w) as [w1|] eqn:He; [|done].
    eauto using exec_preserves_inv.
Qed.

Lemma new_inv (filename : string) w :
  new filename = Ok w → shutdown_inv w.
Proof.
  intros [= <-]. unfold shutdown_inv. cbn.
  split_and!; try done. split; [done | by intros [?|?]].
Qed.

(** Once [running_] is cleared the thread writes at most the line of
    the snapshot it is handling, whatever is still queued. *)
Lemma exec_after_clear (e : event) w w' :
  running_ w = false →
  exec can_open e w = Some w' →
  running_ w' = false
  ∧ (length (file w') + lines_in_flight w' ≤ length (file w) + lines_in_flight w)%nat.
Proof.
  intros Hr He. destruct e as [now|m| | |].
  - apply exec_thread in He. unfold lines_in_flight.
    run_step_cases He; rewrite ?length_app; cbn; split; (done || lia).
  - unfold lines_in_flight. owner_cases w He; split; (done || lia).
  - unfold lines_in_flight. owner_cases w He; split; (done || lia).
  - unfold lines_in_flight. owner_cases w He; split; (done || lia).
  - unfold lines_in_flight. owner_cases w He; split; (done || lia).
Qed.

Lemma at_most_one_line_after_clear (es : list event) w w' :
  running_ w = false →
  execs can_open es w = Some w' →
  (length (file w') ≤ length (file w) + 1)%nat.
Proof.
  intros Hr He.
  enough (length (file w') + lines_in_flight w'
          ≤ length (file w) + lines_in_flight w)%nat as Hle.
  { assert (lines_in_flight w ≤ 1)%nat
      by (unfold lines_in_flight; destruct (thread w); lia).
    lia. }
  revert w Hr He. induction es as [|e es IH]; intros w Hr; cbn.
  - intros [= <-]. lia.
  - destruct (exec can_open e w) as [w1|] eqn:He; [|done].
    intros Hes. destruct (exec_after_clear e w w1 Hr He) as [Hr1 Hle1].
    specialize (IH w1 Hr1 Hes). lia.
Qed.

Lemma execs_app (es es' : list event) w :
  execs can_open (es ++ es') w
  = match execs can_open es w with
    | Some w1 => execs can_open es' w1
    | None => None
    end.
Proof.
  revert w. induction es as [|e es IH]; intros w; cbn; [done|].
  by destruct (exec can_open e w).
Qed.

Lemma execs_writes (ss : list Snapshot) w w' :
  execs can_open (Write <$> ss) w = Some w' →
  file w' = file w ∧ running_ w' = running_ w.
Proof.
  revert w. induction ss as [|metrics ss IH]; intros w; cbn.
  - by intros [= <-].
  - destruct (exec can_open (Write metrics) w) as [w1|] eqn:He; [|done].
    intros Hes. destruct (IH _ Hes) as [-> ->].
    owner_cases w He; done.
Qed.

(** However many snapshots are written while the thread waits, if the
    destructor starts before the thread runs again then at most one line
    reaches the sink, in every continuation of the history. *)
Lemma burst_before_shutdown (filename : string) (ss : list Snapshot)
    (rest : list event) (now now' : string) w0 w :
  new filename = Ok w0 →
  execs can_open
    ([Thread now; Thread now'] ++ (Write <$> ss) ++ DtorClearRunning :: rest) w0
  = Some w →
  written ([Thread now; Thread now'] ++ (Write <$> ss) ++ DtorClearRunning :: rest)
  = ss ++ written rest
  ∧ (length (file w) ≤ 1)%nat.
Proof.
  intros [= <-] Hes. split.
  - clear Hes. cbn. induction ss as [|metrics ss IH]; cbn; [done|].
    by rewrite IH.
  - rewrite execs_app in Hes.
    destruct (execs can_open [Thread now; Thread now'] _) as [w1|] eqn:H1;
      [|done].
    assert (Hw1 : file w1 = [] ∧ running_ w1 = true).
    { cbn in H1. unfold exec, run_step in H1. cbn in H1.
      destruct (can_open filename); cbn in H1; by simplify_eq. }
    rewrite execs_app in Hes.
    destruct (execs can_open (Write <$> ss) w1) as [w2|] eqn:H2; [|done].
    apply execs_writes in H2 as [Hf2 Hr2].
    cbn [execs] in Hes.
    destruct (exec can_open DtorClearRunning w2) as [w3|] eqn:H3; [|done].
    assert (Hw3 : file w3 = file w2 ∧ running_ w3 = false)
      by (owner_cases w2 H3; done).
    destruct Hw3 as [Hf3 Hr3].
    pose proof (at_most_one_line_after_clear rest w3 w Hr3 Hes) as Hle.
    rewrite Hf3, Hf2 in Hle. by rewrite (proj1 Hw1) in Hle.
Qed.

(** C3. When the thread dequeues an empty snapshot while another
    snapshot is next in the queue, [tryPop] removes that snapshot and
    the [continue] drops it: the thread is back at the loop test, the
    snapshot is gone from the queue and the sink has no line for it. *)
Theorem empty_snapshot_drops_next now now' w (next : Snapshot)
    (rest : list Snapshot) :
  thread w = AtWaitAndPop →
  ThreadSafeQueue.queue_ (queue_ w) = [] :: next :: rest →
  ∃ w1 w2,
    run_step can_open now w = Some w1
    ∧ thread w1 = AtTryPop []
    ∧ ThreadSafeQueue.queue_ (queue_ w1) = next :: rest
    ∧ run_step can_open now' w1 = Some w2
    ∧ thread w2 = LoopHead
    ∧ ThreadSafeQueue.queue_ (queue_ w2) = rest
    ∧ file w2 = file w.
Proof.
  intros Ht Hq.
  exists (set_thread (AtTryPop [])
            (set_queue {| ThreadSafeQueue.queue_ := next :: rest;
                          ThreadSafeQueue.stopped_ :=
                            ThreadSafeQueue.stopped_ (queue_ w) |} w)).
  eexists. split_and!.
  - unfold run_step. rewrite Ht.
    unfold ThreadSafeQueue.waitAndPop.
    by rewrite (outcome_cons _ [] (next :: rest) Hq).
  - done.
  - done.
  - unfold run_step, ThreadSafeQueue.tryPop. cbn. reflexivity.
  - done.
  - done.
  - done.
Qed.

End WriterFacts.

Lemma empty_snapshot_drops_next_witness :
  ∃ w1 w2,
    MetricsWriter.run_step opens_all "t2" pending_writer = Some w1
    ∧ MetricsWriter.thread w1 = MetricsWriter.AtTryPop []
    ∧ ThreadSafeQueue.queue_ (MetricsWriter.queue_ w1) = [snap1]
    ∧ MetricsWriter.run_step opens_all "t3" w1 = Some w2
    ∧ MetricsWriter.thread w2 = MetricsWriter.LoopHead
    ∧ ThreadSafeQueue.queue_ (MetricsWriter.queue_ w2) = []
    ∧ MetricsWriter.file w2 = MetricsWriter.file pending_writer.
Proof.
  apply (empty_snapshot_drops_next opens_all "t2" "t3" pending_writer snap1 []);
    reflexivity.
Defined.

(** C2 at a failing input.  One snapshot is written while the thread
    stands at the loop test; the destructor clears [running_]; the thread
    tests the flag.  [run] has then left its loop and returned although
    the queue has not been stopped and still holds the snapshot, for
    which the sink has no line. *)
Theorem loop_exit_with_pending_snapshot :
  ∃ w0 w,
    MetricsWriter.new "metrics.txt" = Ok w0
    ∧ MetricsWriter.execs opens_all early_exit_history w0 = Some w
    ∧ MetricsWriter.written early_exit_history = [snap1]
    ∧ MetricsWriter.thread w = MetricsWriter.Returned
    ∧ ThreadSafeQueue.stopped_ (MetricsWriter.queue_ w) = false
    ∧ ThreadSafeQueue.queue_ (MetricsWriter.queue_ w) = [snap1]
    ∧ MetricsWriter.file w = [].
Proof. do 2 eexists. split_and!; reflexivity. Qed.

(** C1 at a failing input.  Two snapshots are written while the thread
    waits in [waitAndPop]; the destructor then runs to its end.  When it
    returns, the sink holds the line of the first snapshot only and the
    second snapshot is still in the queue. *)
Theorem shutdown_loses_pending_snapshot :
  ∃ w0 w,
    MetricsWriter.new "metrics.txt" = Ok w0
    ∧ MetricsWriter.execs opens_all shutdown_history w0 = Some w
    ∧ MetricsWriter.written shutdown_history = [snap1; snap2]
    ∧ MetricsWriter.owner w = MetricsWriter.Joined
    ∧ MetricsWriter.thread w = MetricsWriter.Returned
    ∧ MetricsWriter.file w = [MetricsWriter.format_line "t4" snap1]
    ∧ ThreadSafeQueue.queue_ (MetricsWriter.queue_ w) = [snap2].
Proof. do 2 eexists. split_and!; reflexivity. Qed.

(** C7 at a failing input.  With a sink that cannot be opened the
    constructors of the writer and of the collector return normally; the
    failure is raised later, inside the thread, where nothing catches it:
    the first step of [run] ends in [std::terminate], after which nothing
    runs any more. *)
Theorem unopenable_sink_not_reported_to_caller :
  ∃ w0 c0,
    opens_none "/no/such/dir/metrics.txt" = false
    ∧ MetricsWriter.new "/no/such/dir/metrics.txt" = Ok w0
    ∧ MetricsCollector.new "/no/such/dir/metrics.txt" = Ok c0
    ∧ MetricsWriter.run_step opens_none "t0" w0
      = Some (MetricsWriter.set_thread MetricsWriter.Terminated w0)
    ∧ ∀ e, MetricsWriter.exec opens_none e
             (MetricsWriter.set_thread MetricsWriter.Terminated w0) = None.
Proof. do 2 eexists. split_and!; reflexivity. Qed.

(** On any file system, no file name makes a constructor throw. *)
Lemma constructors_never_throw (filename : string) :
  (∃ w, MetricsWriter.new filename = Ok w
        ∧ MetricsWriter.thread w = MetricsWriter.Spawned)
  ∧ (∃ c, MetricsCollector.new filename = Ok c).
Proof. split; eexists; [split|]; reflexivity. Qed.

(** ** The collector *)

Section CollectorFacts.

Import MetricsCollector.

Implicit Types (h : gmap ptr MetricObj) (ms : list ptr) (o : MetricObj).

Lemma reset_name o : getName (reset o) = getName o.
Proof. by destruct o. Qed.

Lemma reset_text o : getValueAsString (reset o) = zero_text o.
Proof. by destruct o. Qed.

Lemma reset_reset o : reset (reset o) = reset o.
Proof. by destruct o. Qed.

(** The loop runs to its end when every registered pointer designates
    an object. *)
Lemma collect_total ms h (snapshot : Snapshot) :
  (∀ p, p ∈ ms → is_Some (h !! p)) →
  is_Some (collect ms h snapshot).
Proof.
  revert h snapshot. induction ms as [|p ms IH]; intros h snapshot Hdom; cbn.
  - done.
  - destruct (Hdom p) as [o Ho]; [by left|]. rewrite Ho.
    apply IH. intros p' Hp'.
    destruct (decide (p = p')) as [->|Hne].
    + rewrite lookup_insert_eq. done.
    + rewrite lookup_insert_ne by done. apply Hdom. by right.
Qed.

(** What the loop leaves behind: one entry per registration, in order,
    and every registered object reset. *)
Lemma collect_spec ms h h' (snapshot snapshot' : Snapshot) :
  collect ms h snapshot = Some (h', snapshot') →
  ∃ entries : Snapshot,
    snapshot' = snapshot ++ entries
    ∧ length entries = length ms
    ∧ (∀ (i : nat) p o,
         ms !! i = Some p → h !! p = Some o →
         entries !! i
         = Some (getName o,
                 getValueAsString (if decide (p ∈ take i ms) then reset o else o)))
    ∧ (∀ p, h' !! p = if decide (p ∈ ms) then reset <$> h !! p else h !! p).
Proof.
  revert h snapshot. induction ms as [|p0 ms IH]; intros h snapshot;
    cbn [collect].
  - intros [= <- <-]. exists []. rewrite app_nil_r. split_and!; try done.
  - destruct (h !! p0) as [o0|] eqn:Hp0; [|done]. intros Hc.
    destruct (IH _ _ Hc) as (entries & Hs & Hlen & Hent & Hheap).
    exists ((getName o0, getValueAsString o0) :: entries).
    split_and!.
    + by rewrite Hs, <- app_assoc.
    + cbn [length]. by rewrite Hlen.
    + intros [|i] p o Hi Hp.
      * cbn in Hi. simplify_eq. cbn [take lookup list_lookup].
        rewrite decide_False; [done|]. apply not_elem_of_nil.
      * change (ms !! i = Some p) in Hi.
        change (entries !! i
                = Some (getName o,
                        getValueAsString
                          (if decide (p ∈ p0 :: take i ms) then reset o else o))).
        destruct (decide (p = p0)) as [->|Hne].
        -- assert (o = o0) as -> by congruence.
           rewrite (Hent i p0 (reset o0)); [|done|by rewrite lookup_insert_eq].
           rewrite reset_name, (decide_True (P := p0 ∈ p0 :: take i ms));
             [|by left].
           by destruct (decide (p0 ∈ take i ms)); rewrite ?reset_reset.
        -- rewrite (Hent i p o); [|done|by rewrite lookup_insert_ne].
           destruct (decide (p ∈ take i ms)) as [Hin|Hnin].
           ++ rewrite decide_True; [done|]. by right.
           ++ rewrite decide_False; [done|].
              intros [?|?]%elem_of_cons; done.
    + intros p. rewrite Hheap.
      destruct (decide (p = p0)) as [->|Hne].
      * rewrite lookup_insert_eq, Hp0, (decide_True (P := p0 ∈ p0 :: ms));
          [|by left].
        destruct (decide (p0 ∈ ms)); cbn [fmap option_fmap option_map];
          by rewrite ?reset_reset.
      * rewrite lookup_insert_ne by done.
        destruct (decide (p ∈ ms)) as [Hin|Hnin].
        -- rewrite decide_True; [done|]. by right.
        -- rewrite decide_False; [done|].
           intros [?|?]%elem_of_cons; done.
Qed.

(** C6. [collectAndWrite] hands the writer exactly one snapshot, with
    one entry per registration in registration order.  The entry of a
    metric carries its name and the text of the value it held when the
    pass reached it: the value from before the call, unless the same
    object was registered earlier in the list, in which case it is
    already the zero text.  After the call every registered metric
    reads as its zero text ("0.00" for a gauge, "0" for a counter),
    keeps its name, and no other object has changed. *)
Theorem collectAndWrite_snapshot_and_reset (c : MetricsCollector.t) h :
  (∀ p, p ∈ metrics_ c → is_Some (h !! p)) →
  ∃ c' h' (snapshot : Snapshot),
    collectAndWrite c h = Some (c', h')
    ∧ metrics_ c' = metrics_ c
    ∧ ThreadSafeQueue.queue_ (MetricsWriter.queue_ (writer_ c'))
      = ThreadSafeQueue.queue_ (MetricsWriter.queue_ (writer_ c)) ++ [snapshot]
    ∧ length snapshot = length (metrics_ c)
    ∧ (∀ (i : nat) p o,
         metrics_ c !! i = Some p → h !! p = Some o →
         snapshot !! i
         = Some (getName o,
                 if decide (p ∈ take i (metrics_ c)) then zero_text o
                 else getValueAsString o))
    ∧ (∀ p o,
         p ∈ metrics_ c → h !! p = Some o →
         ∃ o', h' !! p = Some o' ∧ getName o' = getName o
               ∧ getValueAsString o' = zero_text o)
    ∧ (∀ p, p ∉ metrics_ c → h' !! p = h !! p).
Proof.
  intros Hdom. unfold collectAndWrite.
  destruct (collect_total (metrics_ c) h [] Hdom) as [[h' snapshot] Hc].
  rewrite Hc.
  destruct (collect_spec _ _ _ _ _ Hc) as (entries & Hs & Hlen & Hent & Hheap).
  cbn in Hs. subst snapshot.
  eexists _, h', entries. split_and!; try done.
  - intros i p o Hi Hp. rewrite (Hent i p o Hi Hp).
    destruct (decide (p ∈ take i (metrics_ c))); by rewrite ?reset_text.
  - intros p o Hin Hp. exists (reset o).
    rewrite Hheap, decide_True, Hp by done.
    by rewrite reset_name, reset_text.
  - intros p Hnin. by rewrite Hheap, decide_False.
Qed.

End CollectorFacts.

Lemma collectAndWrite_snapshot_and_reset_witness :
  ∃ c' h' (snapshot : Snapshot),
    MetricsCollector.collectAndWrite
      (MetricsCollector.addMetric 2%nat
         (MetricsCollector.addMetric 1%nat waiting_collector))
      test_heap
    = Some (c', h')
    ∧ snapshot !! 0%nat = Some ("test_gauge_collector", "123.45")
    ∧ snapshot !! 1%nat = Some ("test_counter_collector", "7")
    ∧ ThreadSafeQueue.queue_ (MetricsWriter.queue_ (MetricsCollector.writer_ c'))
      = [snapshot].
Proof.
  destruct (collectAndWrite_snapshot_and_reset
              (MetricsCollector.addMetric 2%nat
                 (MetricsCollector.addMetric 1%nat waiting_collector))
              test_heap)
    as (c' & h' & snapshot & Hc & _ & Hq & _ & Hent & _).
  - intros p Hp. cbn in Hp. unfold test_heap.
    apply elem_of_cons in Hp as [->|Hp]; [by vm_compute; eauto|].
    apply elem_of_cons in Hp as [->|Hp]; [by vm_compute; eauto|].
    by apply not_elem_of_nil in Hp.
  - exists c', h', snapshot. split_and!.
    + exact Hc.
    + by apply (Hent 0%nat 1%nat
                  (OGauge (Gauge.update d123_45 (Gauge.new "test_gauge_collector")))).
    + by apply (Hent 1%nat 2%nat
                  (OCounter (Counter.increment 7 (Counter.new "test_counter_collector")))).
    + exact Hq.
Defined.

(** ** End-to-end checks *)

(** [test_metrics_collector]: one line with both names and values, and
    both metrics back at zero. *)
Example test_metrics_collector :
  ∃ c h,
    collector_test_run = Some (c, h)
    ∧ MetricsWriter.file (MetricsCollector.writer_ c)
      = ["2025-07-01 12:00:00.000 " +:+ dquote +:+ "test_gauge_collector" +:+ dquote
         +:+ " 123.45 " +:+ dquote +:+ "test_counter_collector" +:+ dquote
         +:+ " 7" +:+ newline]
    ∧ MetricsWriter.owner (MetricsCollector.writer_ c) = MetricsWriter.Joined
    ∧ getValueAsString <$> h !! 1%nat = Some "0.00"
    ∧ getValueAsString <$> h !! 2%nat = Some "0".
Proof. do 2 eexists. split_and!; by vm_compute. Qed.

(** A collection made before any metric is registered queues an empty
    snapshot; the snapshot of the next collection, queued behind it, is
    taken by the thread and never written. *)
Example empty_collection_drops_next :
  ∃ c h,
    empty_then_registered
    = Some (c, h, [[]; [("test_gauge_collector", "123.45");
                        ("test_counter_collector", "7")]])
    ∧ MetricsWriter.thread (MetricsCollector.writer_ c) = MetricsWriter.LoopHead
    ∧ ThreadSafeQueue.queue_ (MetricsWriter.queue_ (MetricsCollector.writer_ c)) = []
    ∧ MetricsWriter.file (MetricsCollector.writer_ c) = [].
Proof. do 2 eexists. split_and!; by vm_compute. Qed.

(** A metric registered twice appears twice in the snapshot, the second
    time with the value its first entry left behind. *)
Example registered_twice :
  ∃ c h,
    MetricsCollector.collectAndWrite
      (MetricsCollector.addMetric 1%nat
         (MetricsCollector.addMetric 1%nat waiting_collector)) test_heap
    = Some (c, h)
    ∧ ThreadSafeQueue.queue_ (MetricsWriter.queue_ (MetricsCollector.writer_ c))
      = [[("test_gauge_collector", "123.45"); ("test_gauge_collector", "0.00")]].
Proof. do 2 eexists. split; by vm_compute. Qed.

(** * Further properties *)

(** ** The hand-off queue *)

Section QueueRuns.

Import ThreadSafeQueue.

Implicit Types (q : ThreadSafeQueue.t) (data : Snapshot) (ss : list Snapshot).

Lemma pushes_spec ss q :
  pushes ss q = {| queue_ := queue_ q ++ ss; stopped_ := stopped_ q |}.
Proof.
  revert q. induction ss as [|s ss IH]; intros q; cbn.
  - rewrite app_nil_r. by destruct q.
  - rewrite IH. cbn. by rewrite <- app_assoc.
Qed.

Lemma drain_enough (l : list Snapshot) (st : bool) (n : nat) :
  (length l ≤ n)%nat →
  drain n {| queue_ := l; stopped_ := st |} = (l, {| queue_ := []; stopped_ := st |}).
Proof.
  revert l. induction n as [|n IH]; intros [|x l] Hn; cbn in *; try done; try lia.
  rewrite IH by lia. done.
Qed.

(** X1. Whatever is pushed comes back: after a run of [push] calls,
    [tryPop] called at least as often as there are queued snapshots
    returns the ones that were queued before followed by the pushed ones,
    in push order, and leaves the queue empty with its flag unchanged. *)
Theorem push_drain_roundtrip ss q (n : nat) :
  (length (queue_ q) + length ss ≤ n)%nat →
  drain n (pushes ss q)
  = (queue_ q ++ ss, {| queue_ := []; stopped_ := stopped_ q |}).
Proof.
  intros Hn. rewrite pushes_spec. apply drain_enough.
  rewrite length_app. lia.
Qed.

Lemma push_drain_roundtrip_witness :
  drain 5 (pushes [[("a", "1")]; []; [("b", "2")]] ThreadSafeQueue.new)
  = ([[("a", "1")]; []; [("b", "2")]], ThreadSafeQueue.new).
Proof.
  apply (push_drain_roundtrip [[("a", "1")]; []; [("b", "2")]] ThreadSafeQueue.new 5).
  cbn. lia.
Defined.

(** X2. [push] does not look at the flag: a snapshot pushed after [stop]
    is queued behind the pending ones exactly as if it had been pushed
    before, and is handed out after them. *)
Theorem push_after_stop q data :
  push data (stop q) = stop (push data q)
  ∧ drain (S (length (queue_ q))) (push data (stop q))
    = (queue_ q ++ [data], {| queue_ := []; stopped_ := true |})
  ∧ waitAndPop_outcome (push data (stop q)) ≠ Absent.
Proof.
  split_and!.
  - done.
  - unfold push, stop. cbn [queue_ stopped_]. apply drain_enough.
    rewrite length_app. cbn. lia.
  - unfold push, stop. cbn [queue_ stopped_].
    destruct (queue_ q ++ [data]) as [|x xs] eqn:Hq.
    + by destruct (queue_ q).
    + by rewrite (outcome_cons {| queue_ := x :: xs; stopped_ := true |} x xs).
Qed.

Lemma run_op_stopped (o : op) q :
  stopped_ q = true →
  ∃ q' outs, run_op o q = Some (q', outs) ∧ stopped_ q' = true.
Proof.
  intros Hst. destruct o; cbn.
  - by eexists _, _.
  - unfold tryPop. destruct (queue_ q); by eexists _, _.
  - destruct (queue_ q) as [|x xs] eqn:Hq.
    + rewrite (outcome_nil q Hq), Hst. by eexists _, _.
    + rewrite (outcome_cons q x xs Hq). by eexists _, _.
  - by eexists _, _.
Qed.

(** X3. Once the queue is stopped it stays stopped and no call blocks
    any more: every history of [push], [tryPop], [waitAndPop] and [stop]
    calls runs to its end, and the flag is still set afterwards. *)
Theorem stopped_queue_never_blocks (os : list op) q :
  stopped_ q = true →
  ∃ q' outs, run_ops os q = Some (q', outs) ∧ stopped_ q' = true.
Proof.
  revert q. induction os as [|o os IH]; intros q Hst; cbn.
  - by eexists _, _.
  - destruct (run_op_stopped o q Hst) as (q1 & out & -> & Hst1).
    destruct (IH q1 Hst1) as (q2 & outs & -> & Hst2).
    by eexists _, _.
Qed.

Lemma stopped_queue_never_blocks_witness :
  ∃ q' outs,
    run_ops [WaitAndPop; Push [("a", "1")]; WaitAndPop; WaitAndPop; TryPop]
            (stop ThreadSafeQueue.new)
    = Some (q', outs)
    ∧ stopped_ q' = true.
Proof.
  apply (stopped_queue_never_blocks
           [WaitAndPop; Push [("a", "1")]; WaitAndPop; WaitAndPop; TryPop]
           (stop ThreadSafeQueue.new)).
  reflexivity.
Defined.

(** X4. [tryPop] never blocks: it reports failure exactly on an empty
    queue, and then leaves its argument and the queue untouched, also
    where [waitAndPop] would block; when it reports success it has done
    what [waitAndPop] does, and the queue is one shorter. *)
Theorem tryPop_agrees_with_waitAndPop q data :
  ((tryPop data q).1.1 = false ↔ queue_ q = [])
  ∧ (queue_ q = [] → tryPop data q = (false, data, q))
  ∧ (∀ front rest,
       queue_ q = front :: rest →
       tryPop data q = (true, front, {| queue_ := rest; stopped_ := stopped_ q |})
       ∧ waitAndPop data q
         = Some (front, {| queue_ := rest; stopped_ := stopped_ q |})).
Proof.
  split_and!.
  - unfold tryPop. by destruct (queue_ q).
  - unfold tryPop. by intros ->.
  - intros front rest Hq. split.
    + unfold tryPop. by rewrite Hq.
    + unfold waitAndPop. by rewrite (outcome_cons q front rest Hq).
Qed.

Lemma tryPop_agrees_with_waitAndPop_witness :
  tryPop [("stale", "1")] ThreadSafeQueue.new
  = (false, [("stale", "1")], ThreadSafeQueue.new)
  ∧ waitAndPop [("stale", "1")] ThreadSafeQueue.new = None.
Proof.
  split; [|reflexivity].
  apply (tryPop_agrees_with_waitAndPop ThreadSafeQueue.new [("stale", "1")]).
  reflexivity.
Defined.

End QueueRuns.

(** ** The thread of the writer *)

Section ThreadRuns.

Import MetricsWriter.

Variable can_open : string → bool.

Implicit Types (w : MetricsWriter.t) (now : string) (metrics : Snapshot).

(** X5. The thread stands still in one situation only while [run] is
    under way: inside [waitAndPop], on an empty queue that has not been
    stopped.  Everywhere else it can take its next step, until [run] has
    returned or the process was terminated. *)
Theorem thread_blocked_iff now w :
  run_step can_open now w = None
  ↔ (thread w = AtWaitAndPop
     ∧ ThreadSafeQueue.queue_ (queue_ w) = []
     ∧ ThreadSafeQueue.stopped_ (queue_ w) = false)
    ∨ thread w = Returned
    ∨ thread w = Terminated.
Proof.
  unfold run_step. destruct (thread w) eqn:Ht.
  - destruct (can_open (filename_ w)); split; try done; intros [[? _]|[?|?]]; done.
  - destruct (running_ w); split; try done; intros [[? _]|[?|?]]; done.
  - unfold ThreadSafeQueue.waitAndPop.
    destruct (ThreadSafeQueue.queue_ (queue_ w)) as [|x xs] eqn:Hq.
    + rewrite (outcome_nil _ Hq).
      destruct (ThreadSafeQueue.stopped_ (queue_ w)); split; try done; auto.
      intros [(_ & _ & ?)|[?|?]]; done.
    + rewrite (outcome_cons _ x xs Hq). split; [done|].
      intros [(_ & ? & _)|[?|?]]; done.
  - destruct (is_empty metrics);
      [destruct (ThreadSafeQueue.tryPop metrics (queue_ w)) as [[[] ?] ?]|];
      split; try done; intros [[? _]|[?|?]]; done.
  - destruct (negb (is_empty metrics)); split; try done;
      intros [[? _]|[?|?]]; done.
  - split; auto.
  - split; auto.
Qed.

(** One turn of the loop on a queue whose head is not empty. *)
Lemma loop_turn (n1 n2 n3 n4 : string) (nows : list string) w metrics
    (rest : list Snapshot) :
  thread w = LoopHead →
  running_ w = true →
  ThreadSafeQueue.queue_ (queue_ w) = metrics :: rest →
  metrics ≠ [] →
  run_thread can_open (n1 :: n2 :: n3 :: n4 :: nows) w
  = run_thread can_open nows
      (set_thread LoopHead
         (append_line (format_line n4 metrics)
            (set_queue {| ThreadSafeQueue.queue_ := rest;
                          ThreadSafeQueue.stopped_ :=
                            ThreadSafeQueue.stopped_ (queue_ w) |} w))).
Proof.
  intros Ht Hr Hq Hne.
  destruct w as [fn [ql st] run th ow fl]. cbn in Ht, Hr, Hq. subst.
  destruct metrics as [|entry metrics]; [done|]. reflexivity.
Qed.

(** X6. Left alone with a queue of non-empty snapshots and [running_]
    set, the thread writes one line per snapshot, in queue order, each
    with the clock reading of its fourth step, and every line is
    complete before the next snapshot is taken. *)
Theorem thread_drains_queue (ss rest : list Snapshot) (nows : list string) w :
  Forall (λ metrics, metrics ≠ []) ss →
  length nows = (4 * length ss)%nat →
  thread w = LoopHead →
  running_ w = true →
  ThreadSafeQueue.queue_ (queue_ w) = ss ++ rest →
  thread (run_thread can_open nows w) = LoopHead
  ∧ ThreadSafeQueue.queue_ (queue_ (run_thread can_open nows w)) = rest
  ∧ file (run_thread can_open nows w)
    = file w ++ zip_with format_line (stamps nows) ss
  ∧ running_ (run_thread can_open nows w) = true.
Proof.
  intros Hne. revert nows w.
  induction Hne as [|metrics ss Hm Hss IH]; intros nows w Hlen Ht Hr Hq.
  - destruct nows; [|done]. cbn. by rewrite app_nil_r.
  - destruct nows as [|n1 [|n2 [|n3 [|n4 nows]]]]; cbn in Hlen; try lia.
    rewrite (loop_turn n1 n2 n3 n4 nows w metrics (ss ++ rest)) by done.
    edestruct (IH nows) as (Ht' & Hq' & Hf' & Hr'); [lia|..];
      [| | |rewrite Ht', Hq', Hf', Hr'; cbn; by rewrite <- app_assoc]; done.
Qed.

End ThreadRuns.

Lemma thread_blocked_iff_witness :
  MetricsWriter.run_step opens_all "t" (MetricsCollector.writer_ waiting_collector)
  = None.
Proof.
  apply (thread_blocked_iff opens_all "t" (MetricsCollector.writer_ waiting_collector)).
  left. by split_and!.
Defined.

Lemma thread_drains_queue_witness :
  MetricsWriter.file
    (run_thread opens_all ["a"; "b"; "c"; "d"; "e"; "f"; "g"; "h"]
       (MetricsWriter.set_thread MetricsWriter.LoopHead
          (MetricsWriter.set_queue
             {| ThreadSafeQueue.queue_ := [snap1; snap2];
                ThreadSafeQueue.stopped_ := false |} pending_writer)))
  = [] ++ zip_with MetricsWriter.format_line
            (stamps ["a"; "b"; "c"; "d"; "e"; "f"; "g"; "h"]) [snap1; snap2].
Proof.
  apply (thread_drains_queue opens_all [snap1; snap2] []); try reflexivity.
  repeat constructor; done.
Defined.

(** ** What reaches the sink *)

Section SinkFacts.

Import MetricsWriter.

Variable can_open : string → bool.

Implicit Types (w : MetricsWriter.t) (ws : list Snapshot).

Lemma written_app (es es' : list event) :
  written (es ++ es') = written es ++ written es'.
Proof.
  induction es as [|e es IH]; cbn; [done|]. destruct e; cbn; by rewrite ?IH.
Qed.

Lemma exec_sink_inv (e : event) ws w w' :
  sink_inv ws w → exec can_open e w = Some w' →
  sink_inv (ws ++ written [e]) w'.
Proof.
  intros (handled & lines & Hws & Hfile & Hsub & Hne) He.
  unfold sink_inv. destruct e as [now|metrics| | |].
  - apply exec_thread in He. cbn [written]. rewrite app_nil_r.
    unfold run_step in He. unfold inflight in *.
    destruct (thread w) eqn:Ht.
    + exists handled, lines.
      destruct (can_open (filename_ w)); simplify_eq; cbn; done.
    + exists handled, lines.
      destruct (running_ w); simplify_eq; cbn; done.
    + unfold ThreadSafeQueue.waitAndPop in He.
      destruct (ThreadSafeQueue.queue_ (queue_ w)) as [|x xs] eqn:Hq.
      * rewrite (outcome_nil _ Hq) in He.
        destruct (ThreadSafeQueue.stopped_ (queue_ w)); simplify_eq.
        exists handled, lines. cbn. by rewrite Hq.
      * rewrite (outcome_cons _ x xs Hq) in He. simplify_eq. cbn.
        destruct x as [|entry x]; cbn.
        -- exists (handled ++ [[]]), lines. split_and!; try done.
           ++ by rewrite <- app_assoc.
           ++ by apply sublist_inserts_r.
        -- by exists handled, lines.
    + destruct metrics as [|entry metrics]; cbn in He.
      * unfold ThreadSafeQueue.tryPop in He.
        destruct (ThreadSafeQueue.queue_ (queue_ w)) as [|x xs] eqn:Hq;
          simplify_eq; cbn.
        -- exists handled, lines. by rewrite Hq.
        -- exists (handled ++ [x]), lines. split_and!; try done.
           ++ by rewrite <- app_assoc.
           ++ by apply sublist_inserts_r.
      * simplify_eq. by exists handled, lines.
    + destruct metrics as [|entry metrics]; cbn in He; simplify_eq; cbn.
      * by exists handled, lines.
      * exists (handled ++ [entry :: metrics]), (lines ++ [(now, entry :: metrics)]).
        split_and!.
        -- by rewrite <- app_assoc.
        -- by rewrite fmap_app, Hfile.
        -- rewrite fmap_app. by apply sublist_app.
        -- apply Forall_app. split; [done|]. by repeat constructor.
    + done.
    + done.
  - exists handled, lines. unfold inflight in *.
    owner_cases w He; split_and!; try done; by rewrite <- !app_assoc.
  - exists handled, lines. unfold inflight in *.
    owner_cases w He; split_and!; try done; by rewrite ?app_nil_r.
  - exists handled, lines. unfold inflight in *.
    owner_cases w He; split_and!; try done; by rewrite ?app_nil_r.
  - exists handled, lines. unfold inflight in *.
    owner_cases w He; split_and!; try done; by rewrite ?app_nil_r.
Qed.

Lemma execs_sink_inv (es : list event) ws w w' :
  sink_inv ws w → execs can_open es w = Some w' →
  sink_inv (ws ++ written es) w'.
Proof.
  revert ws w. induction es as [|e es IH]; intros ws w Hinv; cbn [execs].
  - intros [= <-]. cbn. by rewrite app_nil_r.
  - destruct (exec can_open e w) as [w1|] eqn:He; [|done]. intros Hes.
    change (e :: es) with ([e] ++ es). rewrite written_app, app_assoc.
    eauto using exec_sink_inv.
Qed.

(** X7. Whatever the schedule, the sink of a writer holds only lines of
    snapshots that were passed to [write], none of them for an empty
    snapshot, in the order of the [write] calls and at most one line per
    call. *)
Theorem sink_is_subsequence_of_written (filename : string) (es : list event)
    w0 w :
  new filename = Ok w0 →
  execs can_open es w0 = Some w →
  ∃ lines : list (string * Snapshot),
    file w = (λ l, format_line l.1 l.2) <$> lines
    ∧ lines.*2 `sublist_of` written es
    ∧ Forall (λ l, l.2 ≠ []) lines.
Proof.
  intros [= <-] Hes.
  assert (Hinit : sink_inv []
            {| filename_ := filename; queue_ := ThreadSafeQueue.new;
               running_ := true; thread := Spawned; owner := Alive; file := [] |}).
  { by exists [], []. }
  destruct (execs_sink_inv es _ _ _ Hinit Hes) as (handled & lines & Hws & Hf & Hsub & Hne).
  exists lines. split_and!; try done.
  cbn in Hws. rewrite Hws. by apply sublist_inserts_r.
Qed.

End SinkFacts.

Lemma sink_is_subsequence_of_written_witness :
  ∃ lines : list (string * Snapshot),
    [MetricsWriter.format_line "t4" snap1]
    = (λ l, MetricsWriter.format_line l.1 l.2) <$> lines
    ∧ lines.*2 `sublist_of` MetricsWriter.written shutdown_history
    ∧ Forall (λ l, l.2 ≠ []) lines.
Proof.
  apply (sink_is_subsequence_of_written opens_all "metrics.txt" shutdown_history
           _ _ eq_refl eq_refl).
Defined.

(** ** Shutdown *)

Section ShutdownFacts.

Import MetricsWriter.

Variable can_open : string → bool.

(** X8. The destructor of a writer in use always comes back, provided
    the sink could be opened: whatever the thread is doing and whatever
    is queued, after [running_] is cleared and the queue stopped the
    thread reaches the end of [run] within four steps, during which it
    writes at most one more line, and [join] returns. *)
Theorem destructor_returns (now : string) (w : MetricsWriter.t) :
  owner w = Alive →
  thread w ≠ Terminated →
  (thread w = Spawned → can_open (filename_ w) = true) →
  ∃ (k : nat) w',
    (k ≤ 4)%nat
    ∧ execs can_open
        ([DtorClearRunning; DtorStopQueue] ++ replicate k (Thread now) ++ [DtorJoin]) w
      = Some w'
    ∧ owner w' = Joined
    ∧ thread w' = Returned
    ∧ (length (file w') ≤ length (file w) + 1)%nat.
Proof.
  intros Ho Ht Hopen.
  destruct w as [fn [ql st] run th ow fl]. cbn in Ho, Ht, Hopen. subst ow.
  destruct th as [| | |metrics|metrics| |]; try done.
  - specialize (Hopen eq_refl). join_after 2%nat.
  - join_after 1%nat.
  - destruct ql as [|[|entry metrics] [|next rest]];
      first [join_after 3%nat | join_after 4%nat].
  - destruct metrics as [|entry metrics]; [destruct ql as [|next rest]|];
      first [join_after 2%nat | join_after 3%nat].
  - destruct metrics as [|entry metrics]; join_after 2%nat.
  - join_after 0%nat.
Qed.

End ShutdownFacts.

Lemma destructor_returns_witness :
  ∃ (k : nat) w',
    (k ≤ 4)%nat
    ∧ MetricsWriter.execs opens_all
        ([MetricsWriter.DtorClearRunning; MetricsWriter.DtorStopQueue]
         ++ replicate k (MetricsWriter.Thread "t") ++ [MetricsWriter.DtorJoin])
        pending_writer
      = Some w'
    ∧ MetricsWriter.owner w' = MetricsWriter.Joined
    ∧ MetricsWriter.thread w' = MetricsWriter.Returned
    ∧ (length (MetricsWriter.file w') ≤ length (MetricsWriter.file pending_writer) + 1)%nat.
Proof.
  apply (destructor_returns opens_all "t" pending_writer); [reflexivity|done|done].
Defined.

(** ** The line format *)

Lemma append_assoc3 (a b c : string) : (a +:+ b) +:+ c = a +:+ b +:+ c.
Proof.
  induction a as [|x a IH]; [reflexivity|].
  change (String x ((a +:+ b) +:+ c) = String x (a +:+ b +:+ c)).
  by rewrite IH.
Qed.

(** X9. The line format does not escape anything: a single metric whose
    name contains a quote, a value and another quoted name is written as
    the very line that two separate metrics produce, so the sink alone
    does not tell the two snapshots apart. *)
Theorem format_line_not_injective (now n1 v1 n2 v2 : string) :
  MetricsWriter.format_line now
    [(n1 +:+ dquote +:+ " " +:+ v1 +:+ " " +:+ dquote +:+ n2, v2)]
  = MetricsWriter.format_line now [(n1, v1); (n2, v2)]
  ∧ [(n1 +:+ dquote +:+ " " +:+ v1 +:+ " " +:+ dquote +:+ n2, v2)]
    ≠ [(n1, v1); (n2, v2)].
Proof.
  split; [|done].
  unfold MetricsWriter.format_line. cbn [foldr].
  by rewrite !append_assoc3.
Qed.

(** The line of the empty snapshot would be the time stamp alone; [run]
    never writes it. *)
Example format_line_nil (now : string) :
  MetricsWriter.format_line now [] = now +:+ newline.
Proof. reflexivity. Qed.

(** ** Collections *)

Section CollectionFacts.

Import MetricsCollector.

Implicit Types (h : gmap ptr MetricObj) (ms : list ptr) (o : MetricObj)
  (c : MetricsCollector.t).

Lemma collect_valid ms h h' (snapshot snapshot' : Snapshot) :
  collect ms h snapshot = Some (h', snapshot') →
  ∀ p, p ∈ ms → is_Some (h !! p).
Proof.
  revert h snapshot. induction ms as [|p0 ms IH]; intros h snapshot; cbn [collect].
  - intros _ p Hp. by apply not_elem_of_nil in Hp.
  - destruct (h !! p0) as [o0|] eqn:Hp0; [|done]. intros Hc p Hp.
    apply elem_of_cons in Hp as [->|Hp]; [by rewrite Hp0|].
    specialize (IH _ _ Hc p Hp).
    destruct (decide (p = p0)) as [->|Hne]; [by rewrite Hp0|].
    by rewrite lookup_insert_ne in IH.
Qed.

(** X10. [collectAndWrite] runs to its end exactly when every registered
    pointer designates an object: one registered pointer without object
    is enough for the call to fail, wherever it stands in the list. *)
Theorem collectAndWrite_defined_iff c h :
  is_Some (collectAndWrite c h)
  ↔ ∀ p, p ∈ metrics_ c → is_Some (h !! p).
Proof.
  unfold collectAndWrite. split.
  - destruct (collect (metrics_ c) h []) as [[h' snapshot]|] eqn:Hc.
    + intros _. by eapply collect_valid.
    + by intros [? ?].
  - intros Hdom.
    destruct (collect_total (metrics_ c) h [] Hdom) as [[h' snapshot] ->].
    done.
Qed.

Lemma collectAndWrite_defined_iff_witness :
  MetricsCollector.collectAndWrite
    (MetricsCollector.addMetric 3%nat
       (MetricsCollector.addMetric 1%nat waiting_collector)) test_heap
  = None.
Proof.
  destruct (MetricsCollector.collectAndWrite
              (MetricsCollector.addMetric 3%nat
                 (MetricsCollector.addMetric 1%nat waiting_collector)) test_heap)
    as [r|] eqn:Hc; [|reflexivity].
  assert (Hs : is_Some (test_heap !! 3%nat)).
  { apply (proj1 (collectAndWrite_defined_iff
                    (MetricsCollector.addMetric 3%nat
                       (MetricsCollector.addMetric 1%nat waiting_collector))
                    test_heap)).
    - rewrite Hc. by eexists.
    - cbn. apply elem_of_cons. right. by apply elem_of_cons; left. }
  by destruct Hs as [o Ho]; vm_compute in Ho.
Defined.

Lemma not_in_take_nodup ms (i : nat) (p : ptr) :
  NoDup ms → ms !! i = Some p → p ∉ take i ms.
Proof.
  intros Hnd Hi [j Hj]%list_elem_of_lookup.
  apply lookup_take_Some in Hj as [Hj Hlt].
  pose proof (NoDup_lookup ms i j p Hnd Hi Hj). lia.
Qed.

(** The snapshot of a collection over distinct, valid pointers. *)
Lemma collect_nodup ms h :
  NoDup ms →
  (∀ p, p ∈ ms → is_Some (h !! p)) →
  ∃ h' (snapshot : Snapshot),
    collect ms h [] = Some (h', snapshot)
    ∧ Forall2 (λ p entry, ∃ o, h !! p = Some o
                              ∧ entry = (getName o, getValueAsString o))
              ms snapshot
    ∧ (∀ p, h' !! p = if decide (p ∈ ms) then reset <$> h !! p else h !! p).
Proof.
  intros Hnd Hdom.
  destruct (collect_total ms h [] Hdom) as [[h' snapshot] Hc].
  destruct (collect_spec _ _ _ _ _ Hc) as (entries & Hs & Hlen & Hent & Hheap).
  cbn in Hs. subst snapshot. exists h', entries. split_and!; try done.
  apply Forall2_same_length_lookup_2; [done|].
  intros i p entry Hi Hentry.
  destruct (Hdom p) as [o Ho]; [by eapply list_elem_of_lookup_2|].
  exists o. split; [done|].
  pose proof (Hent i p o Hi Ho) as Hval.
  rewrite decide_False in Hval by by apply not_in_take_nodup.
  apply (inj Some). rewrite <- Hentry. exact Hval.
Qed.

(** X11. When no object is registered twice, the snapshot handed to the
    writer is, entry by entry in registration order, the name of each
    registered metric with the text of the value it had when
    [collectAndWrite] was called. *)
Theorem collectAndWrite_distinct c h :
  NoDup (metrics_ c) →
  (∀ p, p ∈ metrics_ c → is_Some (h !! p)) →
  ∃ c' h' (snapshot : Snapshot),
    collectAndWrite c h = Some (c', h')
    ∧ ThreadSafeQueue.queue_ (MetricsWriter.queue_ (writer_ c'))
      = ThreadSafeQueue.queue_ (MetricsWriter.queue_ (writer_ c)) ++ [snapshot]
    ∧ Forall2 (λ p entry, ∃ o, h !! p = Some o
                              ∧ entry = (getName o, getValueAsString o))
              (metrics_ c) snapshot.
Proof.
  intros Hnd Hdom. unfold collectAndWrite.
  destruct (collect_nodup _ _ Hnd Hdom) as (h' & snapshot & -> & Hf & _).
  by eexists _, _, snapshot.
Qed.

Lemma collectAndWrite_distinct_witness :
  ∃ c' h' (snapshot : Snapshot),
    MetricsCollector.collectAndWrite
      (MetricsCollector.addMetric 2%nat
         (MetricsCollector.addMetric 1%nat waiting_collector)) test_heap
    = Some (c', h')
    ∧ ThreadSafeQueue.queue_ (MetricsWriter.queue_ (MetricsCollector.writer_ c'))
      = [] ++ [snapshot]
    ∧ Forall2 (λ p entry, ∃ o, test_heap !! p = Some o
                              ∧ entry = (getName o, getValueAsString o))
              [1%nat; 2%nat] snapshot.
Proof.
  apply (collectAndWrite_distinct
           (MetricsCollector.addMetric 2%nat
              (MetricsCollector.addMetric 1%nat waiting_collector)) test_heap).
  - cbn. apply NoDup_cons. split; [|apply NoDup_singleton].
    intros Hin. apply list_elem_of_singleton in Hin. done.
  - intros p Hp. cbn in Hp.
    apply elem_of_cons in Hp as [->|Hp]; [by vm_compute; eauto|].
    apply elem_of_cons in Hp as [->|Hp]; [by vm_compute; eauto|].
    by apply not_elem_of_nil in Hp.
Defined.

Lemma collectAndWrite_heap c c' h h' :
  collectAndWrite c h = Some (c', h') →
  metrics_ c' = metrics_ c
  ∧ (∀ p, p ∈ metrics_ c → is_Some (h !! p))
  ∧ (∀ p, h' !! p
          = if decide (p ∈ metrics_ c) then reset <$> h !! p else h !! p).
Proof.
  unfold collectAndWrite.
  destruct (collect (metrics_ c) h []) as [[h1 snapshot]|] eqn:Hc; [|done].
  intros [= <- <-]. split_and!; [done| |].
  - by eapply collect_valid.
  - by destruct (collect_spec _ _ _ _ _ Hc) as (_ & _ & _ & _ & Hheap).
Qed.

(** X12. A second collection right after the first reports every
    registered metric with its zero text, whether or not an object is
    registered twice, and leaves the metrics exactly as the first
    collection left them. *)
Theorem second_collection_reports_zero c c1 h h1 :
  collectAndWrite c h = Some (c1, h1) →
  ∃ c2 (snapshot : Snapshot),
    collectAndWrite c1 h1 = Some (c2, h1)
    ∧ ThreadSafeQueue.queue_ (MetricsWriter.queue_ (writer_ c2))
      = ThreadSafeQueue.queue_ (MetricsWriter.queue_ (writer_ c1)) ++ [snapshot]
    ∧ Forall2 (λ p entry, ∃ o, h !! p = Some o
                              ∧ entry = (getName o, zero_text o))
              (metrics_ c) snapshot.
Proof.
  intros H1. destruct (collectAndWrite_heap _ _ _ _ H1) as (Hms & Hdom & Hh1).
  assert (Hdom1 : ∀ p, p ∈ metrics_ c1 → is_Some (h1 !! p)).
  { intros p Hp. rewrite Hms in Hp. rewrite Hh1, decide_True by done.
    destruct (Hdom p Hp) as [o ->]. by eexists. }
  unfold collectAndWrite.
  destruct (collect_total (metrics_ c1) h1 [] Hdom1) as [[h2 snapshot] Hc].
  rewrite Hc.
  destruct (collect_spec _ _ _ _ _ Hc) as (entries & Hs & Hlen & Hent & Hheap).
  cbn in Hs. subst snapshot.
  assert (h2 = h1) as ->.
  { apply map_eq. intros p. rewrite Hheap.
    destruct (decide (p ∈ metrics_ c1)) as [Hp|Hp]; [|done].
    rewrite Hms in Hp. rewrite Hh1, decide_True by done.
    destruct (h !! p) as [o|]; [|done].
    cbn [fmap option_fmap option_map]. by rewrite reset_reset. }
  eexists _, entries. split_and!; try done.
  rewrite <- Hms. apply Forall2_same_length_lookup_2; [done|].
  intros i p entry Hi Hentry.
  assert (Hp : p ∈ metrics_ c) by (rewrite <- Hms; by eapply list_elem_of_lookup_2).
  destruct (Hdom p Hp) as [o Ho]. exists o. split; [done|].
  assert (Ho1 : h1 !! p = Some (reset o)) by by rewrite Hh1, decide_True, Ho.
  pose proof (Hent i p (reset o) Hi Ho1) as Hval.
  rewrite reset_name in Hval.
  assert (Hz : getValueAsString
                 (if decide (p ∈ take i (metrics_ c1)) then reset (reset o)
                  else reset o) = zero_text o)
    by (destruct (decide (p ∈ take i (metrics_ c1)));
        by rewrite ?reset_reset, reset_text).
  rewrite Hz in Hval. apply (inj Some). rewrite <- Hentry. exact Hval.
Qed.

Lemma second_collection_reports_zero_witness :
  ∃ c1 h1 c2 (snapshot : Snapshot),
    MetricsCollector.collectAndWrite
      (MetricsCollector.addMetric 2%nat
         (MetricsCollector.addMetric 1%nat waiting_collector)) test_heap
    = Some (c1, h1)
    ∧ MetricsCollector.collectAndWrite c1 h1 = Some (c2, h1)
    ∧ Forall2 (λ p entry, ∃ o, test_heap !! p = Some o
                              ∧ entry = (getName o, zero_text o))
              [1%nat; 2%nat] snapshot.
Proof.
  destruct (MetricsCollector.collectAndWrite
              (MetricsCollector.addMetric 2%nat
                 (MetricsCollector.addMetric 1%nat waiting_collector)) test_heap)
    as [[c1 h1]|] eqn:H1; [|by vm_compute in H1].
  destruct (second_collection_reports_zero _ _ _ _ H1) as (c2 & snapshot & H2 & _ & Hf).
  by exists c1, h1, c2, snapshot.
Defined.

(** X13. [collectAndWrite] only resets and enqueues: it creates and
    destroys no metric object, changes no name and turns no gauge into a
    counter; it leaves the registrations, the sink, the flag [running_]
    and the position of the thread as they are; and it does not touch an
    object that is not registered. *)
Theorem collectAndWrite_frame c c' h h' :
  collectAndWrite c h = Some (c', h') →
  dom h' = dom h
  ∧ (∀ p o', h' !! p = Some o' →
       ∃ o, h !! p = Some o ∧ getName o' = getName o
            ∧ zero_text o' = zero_text o)
  ∧ (∀ p, p ∉ metrics_ c → h' !! p = h !! p)
  ∧ metrics_ c' = metrics_ c
  ∧ MetricsWriter.file (writer_ c') = MetricsWriter.file (writer_ c)
  ∧ MetricsWriter.running_ (writer_ c') = MetricsWriter.running_ (writer_ c)
  ∧ MetricsWriter.thread (writer_ c') = MetricsWriter.thread (writer_ c)
  ∧ ThreadSafeQueue.stopped_ (MetricsWriter.queue_ (writer_ c'))
    = ThreadSafeQueue.stopped_ (MetricsWriter.queue_ (writer_ c)).
Proof.
  intros H1. destruct (collectAndWrite_heap _ _ _ _ H1) as (Hms & Hdom & Hh1).
  assert (Hlk : ∀ p, h' !! p = h !! p ∨ h' !! p = reset <$> h !! p).
  { intros p. rewrite Hh1. destruct (decide (p ∈ metrics_ c)); auto. }
  split_and!.
  - apply set_eq. intros p. rewrite !elem_of_dom.
    destruct (Hlk p) as [->| ->]; [done|]. by rewrite fmap_is_Some.
  - intros p o' Ho'. destruct (Hlk p) as [Hp|Hp]; rewrite Hp in Ho'.
    + by exists o'.
    + destruct (h !! p) as [o|]; [|done]. cbn in Ho'. simplify_eq.
      exists o. split_and!; [done|apply reset_name|by destruct o].
  - intros p Hp. by rewrite Hh1, decide_False.
  - done.
  - unfold collectAndWrite in H1.
    destruct (collect (metrics_ c) h []) as [[? ?]|]; by simplify_eq.
  - unfold collectAndWrite in H1.
    destruct (collect (metrics_ c) h []) as [[? ?]|]; by simplify_eq.
  - unfold collectAndWrite in H1.
    destruct (collect (metrics_ c) h []) as [[? ?]|]; by simplify_eq.
  - unfold collectAndWrite in H1.
    destruct (collect (metrics_ c) h []) as [[? ?]|]; by simplify_eq.
Qed.

Lemma collectAndWrite_frame_witness :
  ∃ c' h',
    MetricsCollector.collectAndWrite
      (MetricsCollector.addMetric 1%nat waiting_collector) test_heap
    = Some (c', h')
    ∧ dom h' = dom test_heap
    ∧ h' !! 2%nat = test_heap !! 2%nat.
Proof.
  destruct (MetricsCollector.collectAndWrite
              (MetricsCollector.addMetric 1%nat waiting_collector) test_heap)
    as [[c' h']|] eqn:H1; [|by vm_compute in H1].
  destruct (collectAndWrite_frame _ _ _ _ H1) as (Hd & _ & Hout & _).
  exists c', h'. split_and!; [done|done|].
  apply Hout. cbn. intros Hin. apply list_elem_of_singleton in Hin. done.
Defined.

(** X14. The round trip through collector, queue and thread: with
    distinct registered metrics, at least one, and the thread waiting on
    an empty queue, [collectAndWrite] followed by three steps of the
    thread adds exactly one line to the sink, which renders the name and
    the value before the call of every registered metric in registration
    order; the queue is empty again and the thread back at the loop
    test. *)
Theorem collect_then_write_one_line (can_open : string → bool)
    (n1 n2 n3 : string) c h :
  NoDup (metrics_ c) →
  (∀ p, p ∈ metrics_ c → is_Some (h !! p)) →
  metrics_ c ≠ [] →
  MetricsWriter.thread (writer_ c) = MetricsWriter.AtWaitAndPop →
  ThreadSafeQueue.queue_ (MetricsWriter.queue_ (writer_ c)) = [] →
  ∃ c1 h1 (snapshot : Snapshot),
    collectAndWrite c h = Some (c1, h1)
    ∧ Forall2 (λ p entry, ∃ o, h !! p = Some o
                              ∧ entry = (getName o, getValueAsString o))
              (metrics_ c) snapshot
    ∧ MetricsWriter.file (run_thread can_open [n1; n2; n3] (writer_ c1))
      = MetricsWriter.file (writer_ c) ++ [MetricsWriter.format_line n3 snapshot]
    ∧ ThreadSafeQueue.queue_
        (MetricsWriter.queue_ (run_thread can_open [n1; n2; n3] (writer_ c1))) = []
    ∧ MetricsWriter.thread (run_thread can_open [n1; n2; n3] (writer_ c1))
      = MetricsWriter.LoopHead.
Proof.
  intros Hnd Hdom Hne Ht Hq. unfold collectAndWrite.
  destruct (collect_nodup _ _ Hnd Hdom) as (h1 & snapshot & -> & Hf & _).
  eexists _, h1, snapshot. split; [done|]. split; [done|].
  assert (Hs : snapshot ≠ []).
  { intros ->. apply Forall2_nil_inv_r in Hf. done. }
  destruct c as [ms [fn [ql st] run th ow fl]]. cbn in Ht, Hq |- *. subst.
  destruct snapshot as [|entry snapshot]; [done|]. by split_and!.
Qed.

Lemma collect_then_write_one_line_witness :
  ∃ c1 h1 (snapshot : Snapshot),
    MetricsCollector.collectAndWrite
      (MetricsCollector.addMetric 2%nat
         (MetricsCollector.addMetric 1%nat waiting_collector)) test_heap
    = Some (c1, h1)
    ∧ Forall2 (λ p entry, ∃ o, test_heap !! p = Some o
                              ∧ entry = (getName o, getValueAsString o))
              [1%nat; 2%nat] snapshot
    ∧ MetricsWriter.file
        (run_thread opens_all ["t1"; "t2"; "t3"] (MetricsCollector.writer_ c1))
      = [] ++ [MetricsWriter.format_line "t3" snapshot]
    ∧ ThreadSafeQueue.queue_
        (MetricsWriter.queue_
           (run_thread opens_all ["t1"; "t2"; "t3"] (MetricsCollector.writer_ c1)))
      = []
    ∧ MetricsWriter.thread
        (run_thread opens_all ["t1"; "t2"; "t3"] (MetricsCollector.writer_ c1))
      = MetricsWriter.LoopHead.
Proof.
  apply (collect_then_write_one_line opens_all "t1" "t2" "t3"
           (MetricsCollector.addMetric 2%nat
              (MetricsCollector.addMetric 1%nat waiting_collector)) test_heap);
    try done.
  - cbn. apply NoDup_cons. split; [|apply NoDup_singleton].
    intros Hin. apply list_elem_of_singleton in Hin. done.
  - intros p Hp. cbn in Hp.
    apply elem_of_cons in Hp as [->|Hp]; [by vm_compute; eauto|].
    apply elem_of_cons in Hp as [->|Hp]; [by vm_compute; eauto|].
    by apply not_elem_of_nil in Hp.
Defined.

End CollectionFacts.

(** ** The text of a gauge *)

Lemma digit_mod (n : Z) : n mod 10 = 0 → digit n = "0"%char.
Proof. unfold digit. by intros ->. Qed.

(** X15. The two decimals a gauge shows are correctly rounded: for an
    exponent that is not negative the hundredths are exact; otherwise
    they are off the exact value by at most half a hundredth, and a value
    exactly half-way goes to the even neighbour. *)
Theorem hundredths_nearest_even (m : N) (e : Z) :
  (0 <= e → hundredths m e = Z.of_N m * 100 * 2 ^ e)
  ∧ (e < 0 →
     2 * Z.abs (hundredths m e * 2 ^ (- e) - Z.of_N m * 100) <= 2 ^ (- e)
     ∧ (2 * Z.abs (hundredths m e * 2 ^ (- e) - Z.of_N m * 100) = 2 ^ (- e) →
        Z.even (hundredths m e) = true)).
Proof.
  unfold hundredths. cbv zeta. split.
  - intros He. by rewrite (proj2 (Z.leb_le 0 e) He).
  - intros He. rewrite (proj2 (Z.leb_gt 0 e) He).
    assert (Hd : 0 < 2 ^ (- e)) by (apply Z.pow_pos_nonneg; lia).
    pose proof (Z.div_mod (Z.of_N m * 100) (2 ^ (- e)) ltac:(lia)) as Hdm.
    pose proof (Z.mod_pos_bound (Z.of_N m * 100) (2 ^ (- e)) Hd) as Hr.
    remember (2 ^ (- e)) as d eqn:Ed. clear Ed.
    remember (Z.of_N m * 100) as n eqn:En. clear En.
    remember (n `div` d) as q eqn:Eq. clear Eq.
    remember (n `mod` d) as r eqn:Er. clear Er.
    subst n.
    destruct (2 * r <? d) eqn:H1.
    { apply Z.ltb_lt in H1. split; [|intros Heq; exfalso]; nia. }
    apply Z.ltb_ge in H1.
    destruct (d <? 2 * r) eqn:H2.
    { apply Z.ltb_lt in H2. split; [|intros Heq; exfalso]; nia. }
    apply Z.ltb_ge in H2.
    destruct (Z.even q) eqn:H3.
    + split; [nia|done].
    + split; [nia|]. intros _.
      by rewrite Z.add_1_r, Z.even_succ, <- Z.negb_even, H3.
Qed.

Lemma hundredths_nearest_even_witness :
  hundredths 4503599627370496 (-55) = 12
  ∧ Z.even (hundredths 4503599627370496 (-55)) = true.
Proof.
  split; [reflexivity|].
  apply (hundredths_nearest_even 4503599627370496 (-55)); [lia|reflexivity].
Defined.

Lemma hundredths_bounds_exact (m : N) (e : Z) :
  0 <= e →
  hundredths m e = Z.of_N m * 100 * 2 ^ e
  ∧ (Z.of_N m * 100 * 2 ^ e) `div` 100 = Z.of_N m * 2 ^ e
  ∧ ((Z.of_N m * 100 * 2 ^ e) `div` 10) `mod` 10 = 0
  ∧ (Z.of_N m * 100 * 2 ^ e) `mod` 10 = 0.
Proof.
  intros He. split_and!.
  - unfold hundredths. cbv zeta. by rewrite (proj2 (Z.leb_le 0 e) He).
  - replace (Z.of_N m * 100 * 2 ^ e) with (Z.of_N m * 2 ^ e * 100) by lia.
    by rewrite Z.div_mul.
  - replace (Z.of_N m * 100 * 2 ^ e) with (Z.of_N m * 2 ^ e * 10 * 10) by lia.
    rewrite Z.div_mul by done. by rewrite Z.mod_mul.
  - replace (Z.of_N m * 100 * 2 ^ e) with (Z.of_N m * 2 ^ e * 10 * 10) by lia.
    by rewrite Z.mod_mul.
Qed.

(** X16. A gauge that holds a whole number (a significand times a power
    of two with an exponent that is not negative) shows that number in
    decimal followed by ".00", with its sign in front. *)
Theorem fixed2_whole_number (g : Gauge.t) (s : bool) (m : N) (e : Z) :
  0 <= e →
  Gauge.getValueAsString (Gauge.update (DFinite s m e) g)
  = sign_prefix s +:+ to_string (Z.of_N m * 2 ^ e) +:+ ".00".
Proof.
  intros He. unfold Gauge.getValueAsString, Gauge.update, fixed2. cbn [Gauge.value_].
  cbv zeta.
  destruct (hundredths_bounds_exact m e He) as (-> & H100 & H10 & H1).
  rewrite H100, (digit_mod _ H10), (digit_mod _ H1). reflexivity.
Qed.

Lemma fixed2_whole_number_witness :
  Gauge.getValueAsString (Gauge.update (DFinite true 3 2) (Gauge.new "g"))
  = "-12.00".
Proof. apply (fixed2_whole_number (Gauge.new "g") true 3 2). lia. Defined.

(** X17. A gauge whose value is smaller in magnitude than half a
    hundredth shows "0.00", and "-0.00" when the sign bit is set; so does
    a zero of either sign. *)
Theorem fixed2_tiny (g : Gauge.t) (s : bool) (m : N) (e : Z) :
  e < 0 →
  2 * (Z.of_N m * 100) < 2 ^ (- e) →
  Gauge.getValueAsString (Gauge.update (DFinite s m e) g)
  = sign_prefix s +:+ "0.00".
Proof.
  intros He Hsmall.
  unfold Gauge.getValueAsString, Gauge.update, fixed2. cbn [Gauge.value_].
  assert (Hh : hundredths m e = 0).
  { unfold hundredths. cbv zeta. rewrite (proj2 (Z.leb_gt 0 e) He).
    rewrite (Z.mod_small (Z.of_N m * 100)) by lia.
    rewrite (proj2 (Z.ltb_lt _ _) Hsmall).
    apply Z.div_small. lia. }
  cbv zeta. rewrite Hh. reflexivity.
Qed.

Lemma fixed2_tiny_witness :
  Gauge.getValueAsString (Gauge.update (DFinite true 1 (-10)) (Gauge.new "g"))
  = "-0.00".
Proof. apply (fixed2_tiny (Gauge.new "g") true 1 (-10)); [lia|reflexivity]. Defined.

(** ** Counters under concurrent use *)

Lemma increment_comm (a b : Z) (c : Counter.t) :
  Counter.increment a (Counter.increment b c)
  = Counter.increment b (Counter.increment a c).
Proof.
  unfold Counter.increment. cbn. f_equal.
  rewrite !wrap_int_add_l. f_equal. lia.
Qed.

(** X18. The order of [increment] calls does not matter: two runs of the
    same calls in different orders, as two schedules of the producers
    give them, leave the same counter. *)
Theorem increments_permutation (args args' : list (option Z)) (c : Counter.t) :
  args ≡ₚ args' →
  Counter.increments args c = Counter.increments args' c.
Proof.
  intros Hp. revert c.
  induction Hp as [|a l l' Hp IH|a b l|l l' l'' Hp1 IH1 Hp2 IH2]; intros c.
  - done.
  - cbn. apply IH.
  - cbn. by rewrite increment_comm.
  - by rewrite IH1.
Qed.

Lemma increments_permutation_witness :
  Counter.increments [Some 5; None; Some (-2)] (Counter.new "c")
  = Counter.increments [Some (-2); Some 5; None] (Counter.new "c").
Proof.
  apply (increments_permutation [Some 5; None; Some (-2)] [Some (-2); Some 5; None]).
  change ([Some 5; None] ++ [Some (-2)] ≡ₚ [Some (-2)] ++ [Some 5; None]).
  apply Permutation_app_comm.
Defined.

Section RaceFacts.

Import CollectRace.

Lemma wrap_int_add_r (a b : Z) : wrap_int (a + wrap_int b) = wrap_int (a + b).
Proof. by rewrite (Z.add_comm a), wrap_int_add_l, (Z.add_comm b). Qed.

Lemma wrap_int_shift (x y d : Z) :
  wrap_int x = wrap_int y → wrap_int (x + d) = wrap_int (y + d).
Proof. intros H. by rewrite <- (wrap_int_add_l x), H, wrap_int_add_l. Qed.

Lemma sum_list_snoc (l : list Z) (z : Z) : sum_list (l ++ [z]) = sum_list l + z.
Proof. unfold sum_list. induction l as [|x l IH]; cbn in *; lia. Qed.

Lemma step_accounted (a : action) (s s' : CollectRace.t) (t : Z) :
  step a s = Some s' →
  wrap_int (accounted s) = wrap_int t →
  wrap_int (accounted s') = wrap_int (t + total [a]).
Proof.
  unfold accounted. destruct a as [arg| |]; cbn [step total].
  - intros [= <-] H. cbn [reported overwritten in_pass counter].
    rewrite Z.add_0_r. destruct (in_pass s).
    + rewrite <- (wrap_int_shift _ _ (Counter.delta_of arg) H). f_equal. lia.
    + cbn [Counter.increment Counter.value_]. rewrite wrap_int_add_r.
      rewrite <- (wrap_int_shift _ _ (Counter.delta_of arg) H). f_equal. lia.
  - destruct (in_pass s); [done|]. intros [= <-] H.
    cbn [reported overwritten in_pass counter].
    rewrite sum_list_snoc, !Z.add_0_r. rewrite <- H. f_equal. lia.
  - destruct (in_pass s); [|done]. intros [= <-] H.
    cbn [reported overwritten in_pass counter Counter.reset Counter.value_].
    rewrite !Z.add_0_r in *. done.
Qed.

Lemma steps_accounted (acts : list action) (s s' : CollectRace.t) (t : Z) :
  steps acts s = Some s' →
  wrap_int (accounted s) = wrap_int t →
  wrap_int (accounted s') = wrap_int (t + total acts).
Proof.
  revert s t. induction acts as [|a acts IH]; intros s t; cbn [steps].
  - intros [= <-] H. cbn. by rewrite Z.add_0_r.
  - destruct (step a s) as [s1|] eqn:Ha; [|done]. intros Hs H.
    pose proof (step_accounted a s s1 t Ha H) as H1.
    specialize (IH s1 _ Hs H1).
    rewrite IH. f_equal. destruct a; cbn; lia.
Qed.

(** X19. Producers may call [increment] at any time, also between the
    two calls a collection makes on the counter.  After any such history
    that ends outside a pass, the values the collections reported, the
    value the counter holds and the deltas added between a read and its
    reset add up to the initial value plus all deltas, up to the
    wrap-around of [int]: the deltas that arrive between
    [getValueAsString] and [reset] are the only ones that appear in no
    snapshot and are not in the counter either. *)
Theorem collection_accounts_for_increments (acts : list action)
    (c : Counter.t) (s : CollectRace.t) :
  steps acts (start c) = Some s →
  in_pass s = false →
  wrap_int (sum_list (reported s) + Counter.value_ (counter s) + overwritten s)
  = wrap_int (Counter.value_ c + total acts).
Proof.
  intros Hs Hp.
  assert (H0 : wrap_int (accounted (start c)) = wrap_int (Counter.value_ c))
    by (unfold accounted; cbn; f_equal; lia).
  pose proof (steps_accounted acts _ s _ Hs H0) as H.
  unfold accounted in H. rewrite Hp in H. rewrite <- H. f_equal. lia.
Qed.

Lemma collection_accounts_for_increments_witness :
  ∃ s,
    steps [Increment (Some 5); PassRead; Increment (Some 3); PassReset]
          (start (Counter.new "c")) = Some s
    ∧ reported s = [5]
    ∧ Counter.value_ (counter s) = 0
    ∧ overwritten s = 3
    ∧ wrap_int (sum_list (reported s) + Counter.value_ (counter s) + overwritten s)
      = wrap_int (Counter.value_ (Counter.new "c")
                  + total [Increment (Some 5); PassRead; Increment (Some 3); PassReset]).
Proof.
  eexists. split; [reflexivity|]. do 3 (split; [reflexivity|]).
  apply (collection_accounts_for_increments
           [Increment (Some 5); PassRead; Increment (Some 3); PassReset]
           (Counter.new "c")); reflexivity.
Defined.

Lemma atomic_steps (acts : list action) :
  (atomic_passes acts = true →
   ∀ s, in_pass s = false →
     ∃ s', steps acts s = Some s' ∧ in_pass s' = false
           ∧ overwritten s' = overwritten s)
  ∧ (atomic_passes (PassRead :: acts) = true →
     ∀ s, in_pass s = true →
       ∃ s', steps acts s = Some s' ∧ in_pass s' = false
             ∧ overwritten s' = overwritten s).
Proof.
  induction acts as [|a acts [IHa IHb]].
  - split; [|done]. intros _ s Hp. by exists s.
  - split.
    + destruct a as [arg| |]; [| |done]; intros Ha s Hp; cbn [steps step].
      * edestruct (IHa Ha) as (s' & -> & Hp' & Ho); [exact Hp|].
        exists s'. cbn in Ho. rewrite Hp in Ho. done.
      * rewrite Hp.
        edestruct (IHb Ha) as (s' & -> & Hp' & Ho); [reflexivity|].
        by exists s'.
    + destruct a as [arg| |]; [done|done|]. intros Ha s Hp. cbn [steps step].
      rewrite Hp. cbn in Ha.
      edestruct (IHa Ha) as (s' & -> & Hp' & Ho); [reflexivity|].
      by exists s'.
Qed.

(** X20. If no [increment] falls between the read and the reset of any
    collection, nothing is lost: the history runs to its end, and the
    reported values plus the value left in the counter add up to the
    initial value plus all deltas, up to the wrap-around of [int]. *)
Theorem atomic_collections_lose_nothing (acts : list action) (c : Counter.t) :
  atomic_passes acts = true →
  ∃ s,
    steps acts (start c) = Some s
    ∧ in_pass s = false
    ∧ overwritten s = 0
    ∧ wrap_int (sum_list (reported s) + Counter.value_ (counter s))
      = wrap_int (Counter.value_ c + total acts).
Proof.
  intros Ha.
  destruct (proj1 (atomic_steps acts) Ha (start c) eq_refl) as (s & Hs & Hp & Ho).
  exists s. cbn in Ho. split_and!; try done.
  assert (H0 : wrap_int (accounted (start c)) = wrap_int (Counter.value_ c))
    by (unfold accounted; cbn; f_equal; lia).
  pose proof (steps_accounted acts _ s _ Hs H0) as H.
  unfold accounted in H. rewrite Hp, Ho in H. rewrite <- H. f_equal. lia.
Qed.

Lemma atomic_collections_lose_nothing_witness :
  ∃ s,
    steps [Increment (Some 5); PassRead; PassReset; Increment None; PassRead; PassReset;
           Increment (Some 2)]
          (start (Counter.new "c")) = Some s
    ∧ in_pass s = false
    ∧ overwritten s = 0
    ∧ wrap_int (sum_list (reported s) + Counter.value_ (counter s))
      = wrap_int (Counter.value_ (Counter.new "c")
                  + total [Increment (Some 5); PassRead; PassReset; Increment None;
                           PassRead; PassReset; Increment (Some 2)]).
Proof.
  apply (atomic_collections_lose_nothing
           [Increment (Some 5); PassRead; PassReset; Increment None; PassRead;
            PassReset; Increment (Some 2)] (Counter.new "c")).
  reflexivity.
Defined.

End RaceFacts.

(** ** The logger *)

Section LoggerFacts.

Import Logger.

Variable can_open : string → bool.

Implicit Types (l : Logger.t) (files : gmap string (list string)).

Lemma log_spec (c : call) l files :
  log can_open c l files
  = if can_open (log_filename_ l) then
      <[log_filename_ l :=
          default [] (files !! log_filename_ l) ++ [record_of c]]> files
    else files.
Proof. by destruct c. Qed.

(** X21. While the log file can be opened, a run of [logError] and
    [logInfo] calls appends one record per call, in call order, behind
    what the file held before (nothing, if it did not exist), and leaves
    every other file alone. *)
Theorem logs_append (cs : list call) l files :
  can_open (log_filename_ l) = true →
  default [] (logs can_open cs l files !! log_filename_ l)
  = default [] (files !! log_filename_ l) ++ (record_of <$> cs)
  ∧ ∀ other, other ≠ log_filename_ l →
      logs can_open cs l files !! other = files !! other.
Proof.
  intros Hopen. unfold logs. revert files.
  induction cs as [|c cs IH]; intros files; cbn [fold_left fmap list_fmap].
  - by rewrite app_nil_r.
  - destruct (IH (log can_open c l files)) as [IH1 IH2].
    rewrite log_spec, Hopen in IH1, IH2. split.
    + rewrite log_spec, Hopen, IH1, lookup_insert_eq. cbn.
      by rewrite <- app_assoc.
    + intros other Hne. rewrite log_spec, Hopen, (IH2 other Hne).
      by rewrite lookup_insert_ne.
Qed.

(** X22. While the log file cannot be opened, every call returns without
    any effect: the messages are dropped and nothing tells the caller. *)
Theorem logs_dropped (cs : list call) l files :
  can_open (log_filename_ l) = false →
  logs can_open cs l files = files.
Proof.
  intros Hopen. unfold logs. induction cs as [|c cs IH]; [done|].
  cbn [fold_left]. by rewrite log_spec, Hopen.
Qed.

End LoggerFacts.

Lemma logs_append_witness :
  default []
    (Logger.logs opens_all
       [Logger.Info "t1" "started"; Logger.Error "t2" "failed"]
       Logger.getInstance ∅ !! "metrics.log")
  = default [] ((∅ : gmap string (list string)) !! "metrics.log")
    ++ [ "t1 [INFO] started" +:+ newline; "t2 [ERROR] failed" +:+ newline ].
Proof.
  apply (logs_append opens_all
           [Logger.Info "t1" "started"; Logger.Error "t2" "failed"]
           Logger.getInstance ∅).
  reflexivity.
Defined.

Lemma logs_dropped_witness :
  Logger.logs opens_none
    [Logger.Info "t1" "started"; Logger.Error "t2" "failed"]
    Logger.getInstance ∅
  = ∅.
Proof.
  apply (logs_dropped opens_none
           [Logger.Info "t1" "started"; Logger.Error "t2" "failed"]
           Logger.getInstance ∅).
  reflexivity.
Defined.

(** ** The test runner *)

Section TestRunnerFacts.

Import MetricsTests.

Implicit Types (tests : list TestInfo).

Lemma failures_le tests : (failures tests ≤ length tests)%nat.
Proof. unfold failures. apply length_filter. Qed.





End TestRunnerFacts.


(** ** Invariants of the writer, from construction on *)

Section ReachableFacts.

Import MetricsWriter.

Variable can_open : string → bool.

(** X24. In every state a writer reaches from its construction:
    [running_] is set exactly as long as the owner has not entered the
    destructor; the queue is stopped exactly from the destructor's call
    of [stop] on, hence never while [running_] is set; [run] has returned
    only after [running_] was cleared; and the destructor has come back
    from [join] only after [run] returned. *)
Theorem writer_state_invariant (filename : string) (es : list event)
    (w0 w : MetricsWriter.t) :
  new filename = Ok w0 →
  execs can_open es w0 = Some w →
  (running_ w = true ↔ owner w = Alive)
  ∧ (ThreadSafeQueue.stopped_ (queue_ w) = true
     ↔ owner w = QueueStopped ∨ owner w = Joined)
  ∧ (ThreadSafeQueue.stopped_ (queue_ w) = true → running_ w = false)
  ∧ (thread w = Returned → running_ w = false)
  ∧ (owner w = Joined → thread w = Returned).
Proof.
  intros Hnew Hes. apply new_inv in Hnew.
  destruct (execs_preserve_inv can_open es w0 w Hnew Hes) as (Hrun & Hstop & Hret & Hj).
  split_and!; try done.
  intros Hst. apply Hstop in Hst. destruct (running_ w) eqn:Hr; [|done].
  destruct Hrun as [Ha _]. specialize (Ha eq_refl). rewrite Ha in Hst.
  by destruct Hst.
Qed.

(** X25. From the moment the destructor clears [running_], at most one
    more line reaches the sink, in every schedule and whatever the queue
    holds at that moment. *)
Theorem at_most_one_line_once_destruction_starts (filename : string)
    (before after : list event) (w0 w1 w : MetricsWriter.t) :
  new filename = Ok w0 →
  execs can_open before w0 = Some w1 →
  execs can_open (DtorClearRunning :: after) w1 = Some w →
  (length (file w) ≤ length (file w1) + 1)%nat.
Proof.
  intros _ _ Hes. cbn [execs] in Hes.
  destruct (exec can_open DtorClearRunning w1) as [w2|] eqn:Hc; [|done].
  assert (Hw2 : file w2 = file w1 ∧ running_ w2 = false)
    by (owner_cases w1 Hc; done).
  destruct Hw2 as [Hf Hr].
  pose proof (at_most_one_line_after_clear can_open after w2 w Hr Hes) as Hle.
  by rewrite Hf in Hle.
Qed.

End ReachableFacts.

Lemma writer_state_invariant_witness :
  ∃ w0 w,
    MetricsWriter.new "metrics.txt" = Ok w0
    ∧ MetricsWriter.execs opens_all shutdown_history w0 = Some w
    ∧ (MetricsWriter.owner w = MetricsWriter.Joined →
       MetricsWriter.thread w = MetricsWriter.Returned).
Proof.
  do 2 eexists. split; [reflexivity|]. split; [reflexivity|].
  apply (writer_state_invariant opens_all "metrics.txt" shutdown_history _ _
           eq_refl eq_refl).
Defined.

Lemma at_most_one_line_once_destruction_starts_witness :
  ∃ w0 w1 w,
    MetricsWriter.new "metrics.txt" = Ok w0
    ∧ MetricsWriter.execs opens_all (take 4 shutdown_history) w0 = Some w1
    ∧ MetricsWriter.execs opens_all (drop 4 shutdown_history) w1 = Some w
    ∧ (length (MetricsWriter.file w) ≤ length (MetricsWriter.file w1) + 1)%nat.
Proof.
  do 3 eexists. split; [reflexivity|]. split; [reflexivity|]. split; [reflexivity|].
  apply (at_most_one_line_once_destruction_starts opens_all "metrics.txt"
           (take 4 shutdown_history) (drop 5 shutdown_history) _ _ _
           eq_refl eq_refl eq_refl).
Defined.
